(** * UTM governance and CAC engine: normalization, channel mapping,
      attribution and metrics

    A shallow embedding of [src/services/normalization.ts],
    [src/services/sourceMapping.ts], [src/services/attribution.ts],
    [src/services/metrics.ts] and [src/models/store.ts].

    Modelling conventions.
    - A JavaScript [number] is a [jsnum]: a real number, or one of the three
      non-finite values.  The range of binary64 is modelled: a sum, product
      or quotient whose magnitude reaches [maxFinite] is an infinity, and
      [Math.pow(0.5, x)] is [0] from [x = 1075] on and [Infinity] up to
      [x = -1024].  Within the range a result is the exact real: rounding to
      the nearest double, the gradual underflow of [+], [*] and [/] and the
      sign of zero are not modelled.  A division by zero produces an infinity
      or [NaN] as in JavaScript.
    - A string is a sequence of UTF-16 code units below 256 (Latin-1).
    - An ISO timestamp is the integer [new Date(s).getTime()] it denotes.
    - A [Map] is the list of its values in insertion order; each value
      carries its key (its [id]).
    - [randomUUID()] and [new Date()] are read from an explicit environment. *)

From Stdlib Require Import List String Ascii Bool Arith ZArith QArith Reals Lra Lia.
From Stdlib Require Import Permutation Sorted.
Import ListNotations.

Set Implicit Arguments.

(* ================================================================== *)
(** ** JavaScript numbers *)

Module JS.

Inductive jsnum : Type :=
| Fin (r : R)
| PosInf
| NegInf
| NaN.

Definition Rltb (x y : R) : bool := if Rlt_dec x y then true else false.
Definition Rleb (x y : R) : bool := if Rle_dec x y then true else false.
Definition Reqb (x y : R) : bool := if Req_dec_T x y then true else false.

(** The least magnitude that rounds to an infinity: half an ulp above
    [Number.MAX_VALUE], which is [2^1024 - 2^971]. *)
Definition maxFinite : R := IZR (2 ^ 1024 - 2 ^ 970).

(** The number that an arithmetic operation returns for the exact result
    [r]. *)
Definition ofReal (r : R) : jsnum :=
  if Rleb maxFinite r then PosInf
  else if Rleb r (- maxFinite) then NegInf
  else Fin r.

Definition isFinite (x : jsnum) : bool :=
  match x with Fin _ => true | _ => false end.

(** [x + y] *)
Definition add (x y : jsnum) : jsnum :=
  match x, y with
  | NaN, _ | _, NaN => NaN
  | Fin a, Fin b => ofReal (a + b)
  | PosInf, NegInf | NegInf, PosInf => NaN
  | PosInf, _ | _, PosInf => PosInf
  | NegInf, _ | _, NegInf => NegInf
  end.

(** [-x] *)
Definition neg (x : jsnum) : jsnum :=
  match x with
  | Fin a => Fin (- a)
  | PosInf => NegInf
  | NegInf => PosInf
  | NaN => NaN
  end.

(** [x - y] *)
Definition sub (x y : jsnum) : jsnum := add x (neg y).

(** The infinity whose sign is the sign of [a] times the sign of [pos];
    [NaN] when [a] is zero. *)
Definition signedInf (pos : bool) (a : R) : jsnum :=
  if Rltb 0 a then (if pos then PosInf else NegInf)
  else if Rltb a 0 then (if pos then NegInf else PosInf)
  else NaN.

(** [x * y] *)
Definition mul (x y : jsnum) : jsnum :=
  match x, y with
  | NaN, _ | _, NaN => NaN
  | Fin a, Fin b => ofReal (a * b)
  | Fin a, PosInf | PosInf, Fin a => signedInf true a
  | Fin a, NegInf | NegInf, Fin a => signedInf false a
  | PosInf, PosInf | NegInf, NegInf => PosInf
  | PosInf, NegInf | NegInf, PosInf => NegInf
  end.

(** [x / y]; the zero denominator is taken to be [+0]. *)
Definition div (x y : jsnum) : jsnum :=
  match x, y with
  | NaN, _ | _, NaN => NaN
  | Fin a, Fin b => if Reqb b 0 then signedInf true a else ofReal (a / b)
  | Fin _, PosInf | Fin _, NegInf => Fin 0
  | PosInf, Fin b => if Rltb b 0 then NegInf else PosInf
  | NegInf, Fin b => if Rltb b 0 then PosInf else NegInf
  | PosInf, _ | NegInf, _ => NaN
  end.

(** [x > y] *)
Definition gt (x y : jsnum) : bool :=
  match x, y with
  | NaN, _ | _, NaN => false
  | Fin a, Fin b => Rltb b a
  | PosInf, PosInf => false
  | PosInf, _ => true
  | Fin _, NegInf => true
  | _, _ => false
  end.

(** [x === y] *)
Definition eq (x y : jsnum) : bool :=
  match x, y with
  | Fin a, Fin b => Reqb a b
  | PosInf, PosInf | NegInf, NegInf => true
  | _, _ => false
  end.

(** Truthiness of a number: everything but [0] and [NaN]. *)
Definition truthy (x : jsnum) : bool :=
  match x with
  | Fin a => negb (Reqb a 0)
  | NaN => false
  | _ => true
  end.

(** [Math.pow(0.5, x)]: [2^-1075] is halfway between [0] and the least
    positive double and rounds to [0]; [2^1024] rounds to [Infinity]. *)
Definition powHalf (x : jsnum) : jsnum :=
  match x with
  | Fin a =>
      if Rleb 1075 a then Fin 0
      else if Rleb a (-1024) then PosInf
      else Fin (Rpower (1 / 2) a)
  | PosInf => Fin 0
  | NegInf => PosInf
  | NaN => NaN
  end.

Definition ofZ (z : Z) : jsnum := Fin (IZR z).
Definition ofNat (n : nat) : jsnum := Fin (INR n).

(** [xs.reduce((sum, x) => sum + x, 0)] *)
Definition sum (xs : list jsnum) : jsnum := fold_left add xs (Fin 0).

(** [x <= y] as a proposition on finite or infinite values. *)
Definition le (x y : jsnum) : Prop :=
  match x, y with
  | NaN, _ | _, NaN => False
  | Fin a, Fin b => (a <= b)%R
  | NegInf, _ | _, PosInf => True
  | _, _ => False
  end.

End JS.

(* ================================================================== *)
(** ** Strings *)

Module Str.

Local Open Scope char_scope.
Local Open Scope string_scope.

Definition code (c : ascii) : nat := nat_of_ascii c.

Definition inRange (lo hi : nat) (c : ascii) : bool :=
  (lo <=? code c)%nat && (code c <=? hi)%nat.

(** Code units changed by [toLowerCase]: [A-Z] and the Latin-1 capitals
    U+00C0..U+00DE without the multiplication sign U+00D7. *)
Definition isUpper (c : ascii) : bool :=
  inRange 65 90 c || (inRange 192 222 c && negb (code c =? 215)%nat).

Definition lowerChar (c : ascii) : ascii :=
  if isUpper c then ascii_of_nat (code c + 32) else c.

(** [s.toLowerCase()] *)
Fixpoint toLowerCase (s : string) : string :=
  match s with
  | EmptyString => EmptyString
  | String c s' => String (lowerChar c) (toLowerCase s')
  end.

(** White space and line terminators: what [trim] strips and what the
    regular expression class [\s] matches. *)
Definition isSpace (c : ascii) : bool :=
  inRange 9 13 c || (code c =? 32)%nat || (code c =? 160)%nat.

(** The regular expression class [[a-z0-9_-]]. *)
Definition isSlugChar (c : ascii) : bool :=
  inRange 97 122 c || inRange 48 57 c || (code c =? 95)%nat || (code c =? 45)%nat.

Fixpoint trimStart (s : string) : string :=
  match s with
  | EmptyString => EmptyString
  | String c s' => if isSpace c then trimStart s' else s
  end.

Fixpoint rev (s : string) : string :=
  match s with
  | EmptyString => EmptyString
  | String c s' => rev s' ++ String c EmptyString
  end.

Definition trimEnd (s : string) : string := rev (trimStart (rev s)).

(** [s.trim()] *)
Definition trim (s : string) : string := trimEnd (trimStart s).

(** [s.replace(/\s+/g, '_')]; [inRun] tells that the previous code unit was
    white space, already replaced. *)
Fixpoint replaceSpaceRuns (inRun : bool) (s : string) : string :=
  match s with
  | EmptyString => EmptyString
  | String c s' =>
      if isSpace c
      then (if inRun then replaceSpaceRuns true s'
            else String "_" (replaceSpaceRuns true s'))
      else String c (replaceSpaceRuns false s')
  end.

(** [s.replace(/[^a-z0-9_-]/g, '')] *)
Fixpoint removeNonSlug (s : string) : string :=
  match s with
  | EmptyString => EmptyString
  | String c s' =>
      if isSlugChar c then String c (removeNonSlug s') else removeNonSlug s'
  end.

(** [s.startsWith(p)] *)
Fixpoint startsWith (s p : string) : bool :=
  match p, s with
  | EmptyString, _ => true
  | String _ _, EmptyString => false
  | String a p', String b s' => Ascii.eqb a b && startsWith s' p'
  end.

(** [s.includes(p)] *)
Fixpoint includes (s p : string) : bool :=
  startsWith s p ||
  match s with
  | EmptyString => false
  | String _ s' => includes s' p
  end.

(** [s.endsWith(p)] *)
Definition endsWith (s p : string) : bool := startsWith (rev s) (rev p).

(** [s.includes(c)] for a single code unit. *)
Fixpoint hasChar (c : ascii) (s : string) : bool :=
  match s with
  | EmptyString => false
  | String b s' => Ascii.eqb b c || hasChar c s'
  end.

(** Truthiness of a possibly undefined string. *)
Definition truthy (v : option string) : bool :=
  match v with
  | Some (String _ _) => true
  | _ => false
  end.

(** Every code unit satisfies [p]. *)
Fixpoint all (p : ascii -> bool) (s : string) : bool :=
  match s with
  | EmptyString => true
  | String c s' => p c && all p s'
  end.

(** [a <= b] on strings: code unit by code unit. *)
Fixpoint leb (a b : string) : bool :=
  match a, b with
  | EmptyString, _ => true
  | String _ _, EmptyString => false
  | String x a', String y b' =>
      (code x <? code y)%nat || (Ascii.eqb x y && leb a' b')
  end.

End Str.

(* ================================================================== *)
(** ** Data model ([src/models/types.ts]) *)

Inductive UTMField : Type :=
| utm_source | utm_medium | utm_campaign | utm_term | utm_content.

Definition UTMField_eqb (a b : UTMField) : bool :=
  match a, b with
  | utm_source, utm_source | utm_medium, utm_medium
  | utm_campaign, utm_campaign | utm_term, utm_term
  | utm_content, utm_content => true
  | _, _ => false
  end.

(** [UTMParams]: five optional strings; [None] is an absent field. *)
Record UTMParams : Type := mkParams {
  p_source : option string;
  p_medium : option string;
  p_campaign : option string;
  p_term : option string;
  p_content : option string
}.

Definition noParams : UTMParams := mkParams None None None None None.

(** [params[field]] *)
Definition getField (f : UTMField) (p : UTMParams) : option string :=
  match f with
  | utm_source => p_source p
  | utm_medium => p_medium p
  | utm_campaign => p_campaign p
  | utm_term => p_term p
  | utm_content => p_content p
  end.

(** [params[field] = v] *)
Definition setField (f : UTMField) (v : string) (p : UTMParams) : UTMParams :=
  match f with
  | utm_source => mkParams (Some v) (p_medium p) (p_campaign p) (p_term p) (p_content p)
  | utm_medium => mkParams (p_source p) (Some v) (p_campaign p) (p_term p) (p_content p)
  | utm_campaign => mkParams (p_source p) (p_medium p) (Some v) (p_term p) (p_content p)
  | utm_term => mkParams (p_source p) (p_medium p) (p_campaign p) (Some v) (p_content p)
  | utm_content => mkParams (p_source p) (p_medium p) (p_campaign p) (p_term p) (Some v)
  end.

Inductive MatchType : Type :=
| exact | contains | regex | startsWith | endsWith.

Record NormalizationRule : Type := mkRule {
  r_id : string;
  r_field : UTMField;
  r_matchType : MatchType;
  r_matchValue : string;
  r_normalizedValue : string;
  r_priority : Q;
  r_isActive : bool
}.

Record SourceMapping : Type := mkMapping {
  m_id : string;
  m_utmSource : string;
  m_utmMedium : option string;
  m_source : string;
  m_sourceDetail : string;
  m_channel : string;
  m_priority : Q;
  m_isActive : bool
}.

Record UTMRecord : Type := mkRecord {
  u_id : string;
  u_contactId : option string;
  u_dealId : option string;
  u_originalParams : UTMParams;
  u_normalizedParams : UTMParams;
  u_source : string;
  u_sourceDetail : string;
  u_channel : string;
  u_timestamp : Z;
  u_revenue : JS.jsnum
}.

Inductive AttributionModel : Type :=
| first_touch | last_touch | linear | time_decay.

Record AttributionConfig : Type := mkConfig {
  model : AttributionModel;
  timeDecayHalfLife : option JS.jsnum
}.

Record AttributionEvent : Type := mkEvent {
  e_id : string;
  e_contactId : string;
  e_dealId : option string;
  e_utmRecordId : string;
  e_channel : string;
  e_source : string;
  e_sourceDetail : string;
  e_attributionModel : AttributionModel;
  e_attributionWeight : JS.jsnum;
  e_revenue : JS.jsnum;
  e_timestamp : Z
}.

Inductive Period : Type := daily | weekly | monthly.

Record ChannelCost : Type := mkCost {
  c_id : string;
  c_channel : string;
  c_source : option string;
  c_sourceDetail : option string;
  c_cost : JS.jsnum;
  c_period : Period;
  c_startDate : string;
  c_endDate : string;
  c_currency : string
}.

(** [a === b] for a possibly undefined string and a string. *)
Definition optIs (a : option string) (b : string) : bool :=
  match a with
  | Some s => String.eqb s b
  | None => false
  end.

(* ================================================================== *)
(** ** The in-memory store ([src/models/store.ts]) *)

Section MapModel.
Variable V : Type.
Variable key : V -> string.

  (** [map.set(key v, v)]: an existing key keeps its place. *)
Fixpoint mapSet (v : V) (m : list V) : list V :=
    match m with
    | [] => [v]
    | x :: m' =>
        if String.eqb (key x) (key v) then v :: m' else x :: mapSet v m'
    end.

Definition hasKey (k : string) (m : list V) : bool :=
    existsb (fun x => String.eqb (key x) k) m.
End MapModel.

Section SortModel.
Variable A : Type.
  (** [before a b]: the comparator applied to [(a, b)] is not positive. *)
Variable before : A -> A -> bool.

Fixpoint insertSorted (x : A) (l : list A) : list A :=
    match l with
    | [] => [x]
    | y :: l' => if before x y then x :: l else y :: insertSorted x l'
    end.

  (** [l.sort(comparator)]: the stable sort. *)
Definition sortBy (l : list A) : list A := fold_right insertSorted [] l.
End SortModel.

Record DataStore : Type := mkStore {
  normalizationRules : list NormalizationRule;
  sourceMappings : list SourceMapping;
  channelCosts : list ChannelCost;
  utmRecords : list UTMRecord;
  attributionEvents : list AttributionEvent
}.

Definition emptyStore : DataStore := mkStore [] [] [] [] [].

Module Store.

Definition addNormalizationRule (rule : NormalizationRule) (st : DataStore) : DataStore :=
  mkStore (mapSet r_id rule (normalizationRules st)) (sourceMappings st)
          (channelCosts st) (utmRecords st) (attributionEvents st).

Definition getAllNormalizationRules (st : DataStore) : list NormalizationRule :=
  sortBy (fun a b => Qle_bool (r_priority b) (r_priority a))
         (filter r_isActive (normalizationRules st)).

Definition addSourceMapping (mapping : SourceMapping) (st : DataStore) : DataStore :=
  mkStore (normalizationRules st) (mapSet m_id mapping (sourceMappings st))
          (channelCosts st) (utmRecords st) (attributionEvents st).

Definition getAllSourceMappings (st : DataStore) : list SourceMapping :=
  sortBy (fun a b => Qle_bool (m_priority b) (m_priority a))
         (filter m_isActive (sourceMappings st)).

Definition addChannelCost (cost : ChannelCost) (st : DataStore) : DataStore :=
  mkStore (normalizationRules st) (sourceMappings st)
          (mapSet c_id cost (channelCosts st)) (utmRecords st) (attributionEvents st).

Definition getAllChannelCosts (st : DataStore) : list ChannelCost := channelCosts st.

Definition getChannelCostsByChannel (channel : string) (st : DataStore) : list ChannelCost :=
  filter (fun c => String.eqb (c_channel c) channel) (channelCosts st).

Definition getChannelCostsInRange (startDate endDate : string) (st : DataStore)
  : list ChannelCost :=
  filter (fun c => Str.leb startDate (c_startDate c) && Str.leb (c_endDate c) endDate)
         (channelCosts st).

Definition addUTMRecord (record : UTMRecord) (st : DataStore) : DataStore :=
  mkStore (normalizationRules st) (sourceMappings st) (channelCosts st)
          (mapSet u_id record (utmRecords st)) (attributionEvents st).

Definition getAllUTMRecords (st : DataStore) : list UTMRecord := utmRecords st.

Definition getUTMRecordsByContact (contactId : string) (st : DataStore) : list UTMRecord :=
  sortBy (fun a b => (u_timestamp a <=? u_timestamp b)%Z)
         (filter (fun r => optIs (u_contactId r) contactId) (utmRecords st)).

Definition addAttributionEvent (event : AttributionEvent) (st : DataStore) : DataStore :=
  mkStore (normalizationRules st) (sourceMappings st) (channelCosts st)
          (utmRecords st) (mapSet e_id event (attributionEvents st)).

Definition getAllAttributionEvents (st : DataStore) : list AttributionEvent :=
  attributionEvents st.

Definition getAttributionEventsByContact (contactId : string) (st : DataStore)
  : list AttributionEvent :=
  filter (fun e => String.eqb (e_contactId e) contactId) (attributionEvents st).

Definition getAttributionEventsByChannel (channel : string) (st : DataStore)
  : list AttributionEvent :=
  filter (fun e => String.eqb (e_channel e) channel) (attributionEvents st).

End Store.

(* ================================================================== *)
(** ** Normalization service ([src/services/normalization.ts]) *)

Section Normalization.

  (** [new RegExp(pattern, 'i').test(value)], [false] when the pattern does
      not compile: the regular expression engine is left abstract. *)
Variable regexTest : string -> string -> bool.

Definition matchesRule (value : string) (rule : NormalizationRule) : bool :=
    let lowerValue := Str.toLowerCase value in
    let lowerMatch := Str.toLowerCase (r_matchValue rule) in
    match r_matchType rule with
    | exact => String.eqb lowerValue lowerMatch
    | contains => Str.includes lowerValue lowerMatch
    | startsWith => Str.startsWith lowerValue lowerMatch
    | endsWith => Str.endsWith lowerValue lowerMatch
    | regex => regexTest (r_matchValue rule) value
    end.

  (** The body of the loop over the rules: [value && matchesRule(value, rule)]. *)
Definition applyRule (rule : NormalizationRule) (normalized : UTMParams) : UTMParams :=
    let field := r_field rule in
    match getField field normalized with
    | Some (String c s) =>
        if matchesRule (String c s) rule
        then setField field (r_normalizedValue rule) normalized
        else normalized
    | _ => normalized
    end.

  (** [for (const rule of rules) { ... }] *)
Fixpoint applyRules (rules : list NormalizationRule) (normalized : UTMParams)
    : UTMParams :=
    match rules with
    | [] => normalized
    | rule :: rest => applyRules rest (applyRule rule normalized)
    end.

Definition cleanValue (value : string) : string :=
    Str.removeNonSlug
      (Str.replaceSpaceRuns false (Str.trim (Str.toLowerCase value))).

  (** One entry of [cleanupParams]: [if (value) cleaned[field] = ...]. *)
Definition cleanupField (value : option string) : option string :=
    match value with
    | Some (String c s) => Some (cleanValue (String c s))
    | _ => None
    end.

Definition cleanupParams (params : UTMParams) : UTMParams :=
    mkParams (cleanupField (p_source params)) (cleanupField (p_medium params))
             (cleanupField (p_campaign params)) (cleanupField (p_term params))
             (cleanupField (p_content params)).

Definition normalize (st : DataStore) (params : UTMParams) : UTMParams :=
    let normalized := params in
    let rules := Store.getAllNormalizationRules st in
    cleanupParams (applyRules rules normalized).

  (** *** The rule chain of the specification, one field at a time *)

  (** A rule fires on the current value of its field when that value is
      present, not empty and matched by the rule's pattern. *)
Definition fires (rule : NormalizationRule) (current : option string) : bool :=
    match current with
    | Some v => Str.truthy current && matchesRule v rule
    | None => false
    end.

Definition chainStep (current : option string) (rule : NormalizationRule)
    : option string :=
    if fires rule current then Some (r_normalizedValue rule) else current.

  (** The fold over the rules that target [f], in the order of the list. *)
Definition ruleChain (f : UTMField) (rules : list NormalizationRule)
    (initial : option string) : option string :=
    fold_left chainStep (filter (fun r => UTMField_eqb (r_field r) f) rules) initial.

  (** The early-exit reading that the specification rules out: the first
      rule that fires decides the field. *)
Fixpoint firstMatchWins (f : UTMField) (rules : list NormalizationRule)
    (initial : option string) : option string :=
    match rules with
    | [] => initial
    | rule :: rest =>
        if UTMField_eqb (r_field rule) f && fires rule initial
        then Some (r_normalizedValue rule)
        else firstMatchWins f rest initial
    end.

End Normalization.

(** The regular expression engine that matches nothing. *)
Definition noRegex (pattern value : string) : bool := false.

Definition seedRules : list NormalizationRule :=
  [ mkRule "norm-1" utm_source exact "fb" "facebook" 10 true;
    mkRule "norm-2" utm_source exact "ig" "instagram" 10 true;
    mkRule "norm-3" utm_source exact "tw" "twitter" 10 true;
    mkRule "norm-4" utm_source exact "li" "linkedin" 10 true;
    mkRule "norm-5" utm_medium exact "cpc" "paid" 10 true;
    mkRule "norm-6" utm_medium exact "ppc" "paid" 10 true ]%string.

Definition seedRuleStore : DataStore :=
  fold_left (fun st r => Store.addNormalizationRule r st) seedRules emptyStore.


(* ================================================================== *)
(** ** Source mapping service ([src/services/sourceMapping.ts]) *)

Record SourceMappingResult : Type := mkResult {
  res_source : string;
  res_sourceDetail : string;
  res_channel : string;
  res_matchedMapping : option SourceMapping
}.

Module Regex.

Local Open Scope char_scope.

(** The backslash, code unit 92. *)
Definition backslash : ascii := Eval cbv in ascii_of_nat 92.

(** The characters of the class [[.+?^${}()|[\]\\]]. *)
Definition isMeta (c : ascii) : bool :=
  existsb (Ascii.eqb c) ["."; "+"; "?"; "^"; "$"; "{"; "}"; "("; ")"; "|"; "["; "]"; backslash].

(** [s.replace(/[.+?^${}()|[\]\\]/g, '\\$&')] *)
Fixpoint escapeMeta (s : string) : string :=
  match s with
  | EmptyString => EmptyString
  | String c s' =>
      if isMeta c then String backslash (String c (escapeMeta s'))
      else String c (escapeMeta s')
  end.

(** [s.replace(/\*/g, '.*')] *)
Fixpoint starToDotStar (s : string) : string :=
  match s with
  | EmptyString => EmptyString
  | String c s' =>
      if Ascii.eqb c "*" then String "." (String "*" (starToDotStar s'))
      else String c (starToDotStar s')
  end.

(** The regular expressions that the two replacements produce: a sequence
    of literal code units and of [.*]. *)
Inductive Item : Type :=
| Lit (c : ascii)
| AnyStar.

(** Reading a regular expression source of that shape: an escaped code unit
    is a literal, [.*] is [AnyStar], any other code unit is a literal. *)
Fixpoint parse (src : string) : list Item :=
  match src with
  | EmptyString => []
  | String c rest =>
      match rest with
      | EmptyString => [Lit c]
      | String d rest' =>
          if Ascii.eqb c backslash then Lit d :: parse rest'
          else if Ascii.eqb c "." && Ascii.eqb d "*" then AnyStar :: parse rest'
          else Lit c :: parse rest
      end
  end.

(** Without the [s] flag, [.] matches any code unit but a line terminator. *)
Definition isLineTerminator (c : ascii) : bool :=
  (Str.code c =? 10)%nat || (Str.code c =? 13)%nat.

(** [new RegExp('^' + src + '$').test(value)] for [items = parse src]. *)
Fixpoint fullMatch (items : list Item) (value : string) : bool :=
  match items with
  | [] => match value with EmptyString => true | _ => false end
  | Lit c :: items' =>
      match value with
      | String d value' => Ascii.eqb c d && fullMatch items' value'
      | EmptyString => false
      end
  | AnyStar :: items' =>
      (fix star (v : string) : bool :=
         fullMatch items' v ||
         match v with
         | String d v' => negb (isLineTerminator d) && star v'
         | EmptyString => false
         end) value
  end.

End Regex.

(** The wildcard semantics of the specification: [*] stands for any run of
    code units that [.] matches, every other code unit stands for itself,
    and the whole value has to be consumed. *)
Inductive Wildcard : string -> string -> Prop :=
| W_end : Wildcard EmptyString EmptyString
| W_char c p v :
    c <> "*"%char -> Wildcard p v -> Wildcard (String c p) (String c v)
| W_star_skip p v :
    Wildcard p v -> Wildcard (String "*" p) v
| W_star_take d p v :
    Regex.isLineTerminator d = false ->
    Wildcard (String "*" p) v -> Wildcard (String "*" p) (String d v).

Section SourceMapping.

Local Open Scope string_scope.

(** [formatSourceName]: title-casing for display, left abstract. *)
Variable formatSourceName : string -> string.

Definition matchesPattern (value pattern : string) : bool :=
  let lowerPattern := Str.toLowerCase pattern in
  if Str.hasChar "*" lowerPattern then
    let regexPattern := Regex.starToDotStar (Regex.escapeMeta lowerPattern) in
    Regex.fullMatch (Regex.parse regexPattern) value
  else String.eqb value lowerPattern.

(** [s?.toLowerCase() || dflt] *)
Definition lowerOr (dflt : string) (s : option string) : string :=
  match s with
  | Some (String c s') => Str.toLowerCase (String c s')
  | _ => dflt
  end.

Definition getDefaultMapping (params : UTMParams) : SourceMappingResult :=
  let utmSource := lowerOr "unknown" (p_source params) in
  let utmMedium := lowerOr EmptyString (p_medium params) in
  let searchEngine := Str.includes utmSource "google" || Str.includes utmSource "bing" in
  let channel :=
    if Str.includes utmMedium "organic" then
      (if searchEngine then "Organic Search" else "Organic Social")
    else if Str.includes utmMedium "paid" || Str.includes utmMedium "cpc"
            || Str.includes utmMedium "ppc" then
      (if searchEngine then "Paid Search" else "Paid Social")
    else if Str.includes utmMedium "email" || Str.includes utmSource "email" then
      "Email"
    else if Str.includes utmMedium "social"
            || existsb (String.eqb utmSource)
                 ["facebook"; "twitter"; "linkedin"; "instagram"] then
      "Social"
    else if String.eqb utmSource "direct"
            || (negb (Str.truthy (p_source params))
                && negb (Str.truthy (p_medium params))) then
      "Direct"
    else if Str.includes utmMedium "referral" then "Referral"
    else "Other" in
  mkResult (formatSourceName utmSource)
           (match utmMedium with
            | EmptyString => "Unknown"
            | _ => formatSourceName utmMedium
            end)
           channel None.

Definition resultOf (mapping : SourceMapping) : SourceMappingResult :=
  mkResult (m_source mapping) (m_sourceDetail mapping) (m_channel mapping)
           (Some mapping).

(** The loop of [mapToSource]; [None] when it falls through. *)
Fixpoint mapLoop (utmSource utmMedium : string) (mappings : list SourceMapping)
  : option SourceMappingResult :=
  match mappings with
  | [] => None
  | mapping :: rest =>
      let sourceMatches := matchesPattern utmSource (m_utmSource mapping) in
      if sourceMatches then
        match m_utmMedium mapping with
        | Some (String c s as medium) =>
            let mediumMatches := matchesPattern utmMedium medium in
            if mediumMatches then Some (resultOf mapping)
            else mapLoop utmSource utmMedium rest
        | _ => Some (resultOf mapping)
        end
      else mapLoop utmSource utmMedium rest
  end.

Definition mapToSource (st : DataStore) (params : UTMParams) : SourceMappingResult :=
  let mappings := Store.getAllSourceMappings st in
  let utmSource := lowerOr EmptyString (p_source params) in
  let utmMedium := lowerOr EmptyString (p_medium params) in
  match mapLoop utmSource utmMedium mappings with
  | Some result => result
  | None => getDefaultMapping params
  end.

(** A mapping is satisfied by an input, in the words of the specification:
    its source pattern matches the source and, when it specifies a medium,
    its medium pattern matches the medium. *)
Definition Satisfies (utmSource utmMedium : string) (mapping : SourceMapping) : Prop :=
  Wildcard (Str.toLowerCase (m_utmSource mapping)) utmSource
  /\ match m_utmMedium mapping with
     | Some (String c s as medium) => Wildcard (Str.toLowerCase medium) utmMedium
     | _ => True
     end.

End SourceMapping.

(** A display function that changes nothing, for examples. *)
Definition plainName (name : string) : string := name.

Definition seedMappings : list SourceMapping :=
  [ mkMapping "map-1" "google" (Some "cpc") "Google Ads" "Search" "Paid Search" 10 true;
    mkMapping "map-2" "google" (Some "organic") "Google" "Organic Search" "Organic Search" 10 true;
    mkMapping "map-3" "facebook" (Some "paid") "Facebook" "Paid Social" "Paid Social" 10 true;
    mkMapping "map-4" "facebook" (Some "organic") "Facebook" "Organic Social" "Organic Social" 10 true;
    mkMapping "map-5" "linkedin" (Some "paid") "LinkedIn" "Paid Social" "Paid Social" 10 true;
    mkMapping "map-6" "email" None "Email" "Newsletter" "Email" 5 true;
    mkMapping "map-7" "direct" None "Direct" "Direct Traffic" "Direct" 1 true ]%string.

Definition seedMappingStore : DataStore :=
  fold_left (fun st m => Store.addSourceMapping m st) seedMappings emptyStore.

(* ================================================================== *)
(** ** Attribution service ([src/services/attribution.ts]) *)

(** The store together with the number of identifiers drawn so far. *)
Record World : Type := mkWorld {
  store : DataStore;
  uuidCalls : nat
}.

(** [weights[i] = v], for [i] within the array. *)
Fixpoint setNth (A : Type) (i : nat) (v : A) (l : list A) : list A :=
  match l, i with
  | [], _ => []
  | _ :: l', O => v :: l'
  | x :: l', S i' => x :: setNth i' v l'
  end.

Section Attribution.

(** [randomUUID k] is the identifier that the [k]-th call of [randomUUID()]
    returns; [now] is the time in milliseconds that [new Date()] reads while
    the operation runs. *)
Variable randomUUID : nat -> string.
Variable now : Z.

Definition defaultConfig : AttributionConfig :=
  mkConfig last_touch (Some (JS.Fin 7)).

Definition firstTouchWeights (n : nat) : list JS.jsnum :=
  let weights := repeat (JS.Fin 0) n in
  if (0 <? n)%nat then setNth 0 (JS.Fin 1) weights else weights.

Definition lastTouchWeights (n : nat) : list JS.jsnum :=
  let weights := repeat (JS.Fin 0) n in
  if (0 <? n)%nat then setNth (n - 1) (JS.Fin 1) weights else weights.

Definition linearWeights (n : nat) : list JS.jsnum :=
  if (n =? 0)%nat then []
  else
    let weight := JS.div (JS.Fin 1) (JS.ofNat n) in
    repeat weight n.

Definition rawWeight (halfLifeMs : JS.jsnum) (tp : UTMRecord) : JS.jsnum :=
  let ageMs := JS.ofZ (now - u_timestamp tp) in
  JS.powHalf (JS.div ageMs halfLifeMs).

Definition timeDecayWeights (touchpoints : list UTMRecord) (halfLifeDays : JS.jsnum)
  : list JS.jsnum :=
  let n := List.length touchpoints in
  if (n =? 0)%nat then []
  else
    let halfLifeMs :=
      JS.mul (JS.mul (JS.mul (JS.mul halfLifeDays (JS.Fin 24)) (JS.Fin 60))
                     (JS.Fin 60)) (JS.Fin 1000) in
    let rawWeights := map (rawWeight halfLifeMs) touchpoints in
    let totalWeight := fold_left (fun sum w => JS.add sum w) rawWeights (JS.Fin 0) in
    map (fun w => JS.div w totalWeight) rawWeights.

(** [config.timeDecayHalfLife || 7] *)
Definition halfLifeOf (config : AttributionConfig) : JS.jsnum :=
  match timeDecayHalfLife config with
  | Some h => if JS.truthy h then h else JS.Fin 7
  | None => JS.Fin 7
  end.

Definition calculateWeights (touchpoints : list UTMRecord) (config : AttributionConfig)
  : list JS.jsnum :=
  let n := List.length touchpoints in
  match model config with
  | first_touch => firstTouchWeights n
  | last_touch => lastTouchWeights n
  | linear => linearWeights n
  | time_decay => timeDecayWeights touchpoints (halfLifeOf config)
  end.

Definition newEvent (id contactId : string) (dealId : option string)
  (revenue : JS.jsnum) (config : AttributionConfig)
  (touchpoint : UTMRecord) (weight : JS.jsnum) : AttributionEvent :=
  mkEvent id contactId dealId (u_id touchpoint) (u_channel touchpoint)
          (u_source touchpoint) (u_sourceDetail touchpoint) (model config)
          weight revenue now.

(** The loop of [createAttribution] over [touchpoints[i]] and [weights[i]];
    a missing weight compares as not positive, so pairing the two arrays
    loses nothing. *)
Fixpoint emitEvents (contactId : string) (dealId : option string)
  (revenue : JS.jsnum) (config : AttributionConfig)
  (pairs : list (UTMRecord * JS.jsnum)) (w : World)
  : list AttributionEvent * World :=
  match pairs with
  | [] => ([], w)
  | (touchpoint, weight) :: rest =>
      if JS.gt weight (JS.Fin 0) then
        let event := newEvent (randomUUID (uuidCalls w)) contactId dealId revenue
                              config touchpoint weight in
        let w' := mkWorld (Store.addAttributionEvent event (store w))
                          (S (uuidCalls w)) in
        let (events, w'') := emitEvents contactId dealId revenue config rest w' in
        (event :: events, w'')
      else emitEvents contactId dealId revenue config rest w
  end.

Definition createAttribution (contactId : string) (dealId : option string)
  (revenue : JS.jsnum) (config : AttributionConfig) (w : World)
  : list AttributionEvent * World :=
  let touchpoints := Store.getUTMRecordsByContact contactId (store w) in
  if (List.length touchpoints =? 0)%nat then ([], w)
  else
    let weights := calculateWeights touchpoints config in
    emitEvents contactId dealId revenue config (combine touchpoints weights) w.

Definition getContactAttribution (contactId : string) (w : World)
  : list AttributionEvent :=
  Store.getAttributionEventsByContact contactId (store w).

Definition recalculateAttribution (contactId : string)
  (newConfig : AttributionConfig) (w : World) : list AttributionEvent * World :=
  let existingEvents := Store.getAttributionEventsByContact contactId (store w) in
  if (List.length existingEvents =? 0)%nat then ([], w)
  else
    let totalRevenue :=
      JS.div (fold_left (fun sum e => JS.add sum (e_revenue e)) existingEvents (JS.Fin 0))
             (fold_left (fun sum e => JS.add sum (e_attributionWeight e))
                        existingEvents (JS.Fin 0)) in
    let dealId :=
      match find (fun e => Str.truthy (e_dealId e)) existingEvents with
      | Some e => e_dealId e
      | None => None
      end in
    createAttribution contactId dealId totalRevenue newConfig w.

End Attribution.

(** The implied original revenue in the words of the specification:
    [sum(revenue * weight) / sum(weight)]. *)
Definition impliedRevenue (events : list AttributionEvent) : JS.jsnum :=
  JS.div (JS.sum (map (fun e => JS.mul (e_revenue e) (e_attributionWeight e)) events))
         (JS.sum (map e_attributionWeight events)).

(* ================================================================== *)
(** ** Metrics service ([src/services/metrics.ts]) *)

Record MetricsCalculationOptions : Type := mkOptions {
  o_startDate : string;
  o_endDate : string;
  o_channel : option string;
  o_source : option string;
  o_sourceDetail : option string
}.

Record ChannelMetrics : Type := mkChannelMetrics {
  cm_channel : string;
  cm_periodStart : string;
  cm_periodEnd : string;
  cm_totalCost : JS.jsnum;
  cm_totalRevenue : JS.jsnum;
  cm_conversions : JS.jsnum;
  cm_cac : JS.jsnum;
  cm_roi : JS.jsnum;
  cm_roas : JS.jsnum
}.

Record Touchpoint : Type := mkTouchpoint {
  t_channel : string;
  t_source : string;
  t_sourceDetail : string;
  t_timestamp : Z;
  t_utmCampaign : option string
}.

Record ContactMetrics : Type := mkContactMetrics {
  touchpoints : list Touchpoint;
  attributedRevenue : JS.jsnum;
  attributedCAC : JS.jsnum
}.


(** [wanted && actual !== wanted] *)
Definition differsFrom (wanted actual : option string) : bool :=
  match wanted with
  | Some (String c s as value) => negb (optIs actual value)
  | _ => false
  end.

(** [a < b] on dates; an invalid date compares as [false]. *)
Definition dateLt (a b : option Z) : bool :=
  match a, b with
  | Some x, Some y => (x <? y)%Z
  | _, _ => false
  end.

(** [[...new Set(l)]]: the first occurrence of each string, in order. *)
Fixpoint uniqueFrom (seen l : list string) : list string :=
  match l with
  | [] => []
  | x :: l' =>
      if existsb (String.eqb x) seen then uniqueFrom seen l'
      else x :: uniqueFrom (x :: seen) l'
  end.

Definition unique (l : list string) : list string := uniqueFrom [] l.

Section Metrics.

(** [new Date(s).getTime()]; [None] for an invalid date. *)
Variable parseDate : string -> option Z.

Definition getTotalCosts (options : MetricsCalculationOptions) (st : DataStore)
  : JS.jsnum :=
  let costs := Store.getChannelCostsInRange (o_startDate options) (o_endDate options) st in
  fold_left (fun sum c => JS.add sum (c_cost c))
    (filter (fun c =>
       if differsFrom (o_channel options) (Some (c_channel c)) then false
       else if differsFrom (o_source options) (c_source c) then false
       else if differsFrom (o_sourceDetail options) (c_sourceDetail c) then false
       else true) costs)
    (JS.Fin 0).

Definition getAttributionEvents (options : MetricsCalculationOptions) (st : DataStore)
  : list AttributionEvent :=
  let allEvents := Store.getAllAttributionEvents st in
  filter (fun e =>
    let eventDate := Some (e_timestamp e) in
    let startDate := parseDate (o_startDate options) in
    let endDate := parseDate (o_endDate options) in
    if dateLt eventDate startDate || dateLt endDate eventDate then false
    else if differsFrom (o_channel options) (Some (e_channel e)) then false
    else if differsFrom (o_source options) (Some (e_source e)) then false
    else if differsFrom (o_sourceDetail options) (Some (e_sourceDetail e)) then false
    else true) allEvents.

Definition getTotalRevenue (options : MetricsCalculationOptions) (st : DataStore)
  : JS.jsnum :=
  let events := getAttributionEvents options st in
  fold_left (fun sum e => JS.add sum (JS.mul (e_revenue e) (e_attributionWeight e)))
            events (JS.Fin 0).

Definition getConversions (options : MetricsCalculationOptions) (st : DataStore)
  : JS.jsnum :=
  let events := getAttributionEvents options st in
  fold_left (fun sum e => JS.add sum (e_attributionWeight e)) events (JS.Fin 0).

Definition calculateCAC (options : MetricsCalculationOptions) (st : DataStore)
  : JS.jsnum :=
  let costs := getTotalCosts options st in
  let conversions := getConversions options st in
  if JS.eq conversions (JS.Fin 0) then JS.Fin 0
  else JS.div costs conversions.

Definition calculateROI (options : MetricsCalculationOptions) (st : DataStore)
  : JS.jsnum :=
  let costs := getTotalCosts options st in
  let revenue := getTotalRevenue options st in
  if JS.eq costs (JS.Fin 0) then JS.Fin 0
  else JS.mul (JS.div (JS.sub revenue costs) costs) (JS.Fin 100).

Definition calculateROAS (options : MetricsCalculationOptions) (st : DataStore)
  : JS.jsnum :=
  let costs := getTotalCosts options st in
  let revenue := getTotalRevenue options st in
  if JS.eq costs (JS.Fin 0) then JS.Fin 0
  else JS.div revenue costs.

Definition getUniqueChannels (st : DataStore) : list string :=
  let utmRecords := Store.getAllUTMRecords st in
  let channelCosts := Store.getAllChannelCosts st in
  unique (map u_channel utmRecords ++ map c_channel channelCosts).

Definition getChannelMetrics (startDate endDate : string) (st : DataStore)
  : list ChannelMetrics :=
  let channels := getUniqueChannels st in
  let metrics :=
    map (fun channel =>
      let channelOptions := mkOptions startDate endDate (Some channel) None None in
      let totalCost := getTotalCosts channelOptions st in
      let totalRevenue := getTotalRevenue channelOptions st in
      let conversions := getConversions channelOptions st in
      mkChannelMetrics channel startDate endDate totalCost totalRevenue conversions
        (if JS.gt conversions (JS.Fin 0) then JS.div totalCost conversions else JS.Fin 0)
        (if JS.gt totalCost (JS.Fin 0)
         then JS.mul (JS.div (JS.sub totalRevenue totalCost) totalCost) (JS.Fin 100)
         else JS.Fin 0)
        (if JS.gt totalCost (JS.Fin 0) then JS.div totalRevenue totalCost else JS.Fin 0))
      channels in
  filter (fun m => JS.gt (cm_totalCost m) (JS.Fin 0)
                   || JS.gt (cm_totalRevenue m) (JS.Fin 0)
                   || JS.gt (cm_conversions m) (JS.Fin 0)) metrics.

(** The apportioned cost of one channel, added to the running total. *)
Definition addChannelShare (st : DataStore) (attributionEvents : list AttributionEvent)
  (totalAttributedCost : JS.jsnum) (channel : string) : JS.jsnum :=
  let channelCosts := Store.getChannelCostsByChannel channel st in
  let channelEvents := Store.getAttributionEventsByChannel channel st in
  if (0 <? List.length channelEvents)%nat then
    let contactWeight :=
      fold_left (fun sum e => JS.add sum (e_attributionWeight e))
        (filter (fun e => String.eqb (e_channel e) channel) attributionEvents)
        (JS.Fin 0) in
    let totalWeight :=
      fold_left (fun sum e => JS.add sum (e_attributionWeight e)) channelEvents
                (JS.Fin 0) in
    let channelTotalCost :=
      fold_left (fun sum c => JS.add sum (c_cost c)) channelCosts (JS.Fin 0) in
    JS.add totalAttributedCost
           (JS.div (JS.mul channelTotalCost contactWeight) totalWeight)
  else totalAttributedCost.

Definition getContactMetrics (contactId : string) (st : DataStore) : ContactMetrics :=
  let utmRecords := Store.getUTMRecordsByContact contactId st in
  let attributionEvents := Store.getAttributionEventsByContact contactId st in
  let touchpoints :=
    map (fun r => mkTouchpoint (u_channel r) (u_source r) (u_sourceDetail r)
                               (u_timestamp r) (p_campaign (u_normalizedParams r)))
        utmRecords in
  let attributedRevenue :=
    fold_left (fun sum e => JS.add sum (JS.mul (e_revenue e) (e_attributionWeight e)))
              attributionEvents (JS.Fin 0) in
  let uniqueChannels := unique (map e_channel attributionEvents) in
  let totalAttributedCost :=
    fold_left (addChannelShare st attributionEvents) uniqueChannels (JS.Fin 0) in
  mkContactMetrics touchpoints attributedRevenue totalAttributedCost.


End Metrics.

(* ================================================================== *)
(** ** Notions used in the statements *)

(** A number that is zero, positive or [Infinity]. *)
Definition nonnegative (x : JS.jsnum) : Prop :=
  match x with
  | JS.Fin r => (0 <= r)%R
  | JS.PosInf => True
  | _ => False
  end.

(** A number other than zero and [NaN]. *)
Definition nonzero (x : JS.jsnum) : Prop :=
  match x with
  | JS.Fin r => r <> 0%R
  | JS.NaN => False
  | _ => True
  end.

(** A weight between zero and one, or [NaN]. *)
Definition shareOrNaN (x : JS.jsnum) : Prop :=
  match x with
  | JS.Fin r => (0 <= r <= 1)%R
  | JS.NaN => True
  | _ => False
  end.

(** The test of the loop of [createAttribution]: [weight > 0]. *)
Definition positive (p : UTMRecord * JS.jsnum) : bool := JS.gt (snd p) (JS.Fin 0).

(** The store after [events] were added one by one. *)
Definition addAll (events : list AttributionEvent) (st : DataStore) : DataStore :=
  fold_left (fun s e => Store.addAttributionEvent e s) events st.

(** The half-life in milliseconds, as [timeDecayWeights] computes it. *)
Definition halfLifeMsOf (halfLifeDays : JS.jsnum) : JS.jsnum :=
  JS.mul (JS.mul (JS.mul (JS.mul halfLifeDays (JS.Fin 24)) (JS.Fin 60))
                 (JS.Fin 60)) (JS.Fin 1000).

(* ================================================================== *)
(** ** Sample data *)

(** Identifiers that differ from call to call. *)
Fixpoint sampleUUID (k : nat) : string :=
  match k with
  | O => "evt"
  | S k' => String "+" (sampleUUID k')
  end.

Definition sampleRecord (id : string) (channel : string) (timestamp : Z) : UTMRecord :=
  mkRecord id (Some "contact-1"%string) None noParams noParams
           channel "detail" channel timestamp (JS.Fin 0).

(** Two touchpoints of [contact-1], the later one stored first:
    2024-01-15 and 2024-01-01, in milliseconds. *)
Definition sampleStore : DataStore :=
  Store.addUTMRecord (sampleRecord "utm-1" "Paid Search" 1704067200000)
    (Store.addUTMRecord (sampleRecord "utm-2" "Paid Social" 1705276800000)
       emptyStore).

Definition sampleWorld : World := mkWorld sampleStore 0.

(** 2024-02-01 in milliseconds. *)
Definition sampleNow : Z := 1706745600000.

(** Time decay with a half-life of 1/128 day (11 minutes and 15 seconds). *)
Definition shortHalfLife : AttributionConfig :=
  mkConfig time_decay (Some (JS.Fin (1 / 128))).

(** Two rules on the source, the second one matching what the first one
    writes. *)
Definition chainedRules : list NormalizationRule :=
  [ mkRule "r-1" utm_source exact "fb" "facebook" 10 true;
    mkRule "r-2" utm_source exact "facebook" "meta" 5 true ]%string.

Definition chainedStore : DataStore :=
  fold_left (fun st r => Store.addNormalizationRule r st) chainedRules emptyStore.

(** The regular expression item that a code unit of a wildcard pattern
    becomes. *)
Definition itemOf (c : ascii) : Regex.Item :=
  if Ascii.eqb c "*" then Regex.AnyStar else Regex.Lit c.

(** [Satisfies] as a test, with the pattern matching of the code. *)
Definition satisfies (utmSource utmMedium : string) (mapping : SourceMapping) : bool :=
  matchesPattern utmSource (m_utmSource mapping)
  && match m_utmMedium mapping with
     | Some (String c s as medium) => matchesPattern utmMedium medium
     | _ => true
     end.

(** The two events of a linear attribution of a revenue of 1000 over the
    sample touchpoints, and the world after that conversion. *)
Definition linearEvent (k : nat) (record : UTMRecord) : AttributionEvent :=
  mkEvent (sampleUUID k) "contact-1" None (u_id record) (u_channel record)
          (u_source record) (u_sourceDetail record) linear
          (JS.Fin (1 / 2)) (JS.Fin 1000) sampleNow.

Definition linearEvents : list AttributionEvent :=
  [ linearEvent 0 (sampleRecord "utm-1" "Paid Search" 1704067200000);
    linearEvent 1 (sampleRecord "utm-2" "Paid Social" 1705276800000) ].

Definition convertedWorld : World := mkWorld (addAll linearEvents sampleStore) 2.

Definition paidSearchCost : ChannelCost :=
  mkCost "cost-1" "Paid Search" None None (JS.Fin 1000) monthly
         "2024-01-01" "2024-01-31" "USD".

(** The dates of January 2024 that the examples use, as [Date] reads them. *)
Definition sampleDate (s : string) : option Z :=
  if String.eqb s "2024-01-01" then Some 1704067200000%Z
  else if String.eqb s "2024-01-31" then Some 1706659200000%Z
  else None.

Definition januaryOptions : MetricsCalculationOptions :=
  mkOptions "2024-01-01" "2024-01-31" (Some "Paid Search"%string) None None.

(** The store of the return-on-investment test: a cost of 1000 and one
    event of weight one carrying a revenue of 3000. *)
Definition roiEvent : AttributionEvent :=
  mkEvent "event-1" "contact-1" None "utm-1" "Paid Search" "Google Ads" "Search"
          last_touch (JS.Fin 1) (JS.Fin 3000) 1705276800000.

Definition roiStore : DataStore :=
  Store.addChannelCost paidSearchCost (Store.addAttributionEvent roiEvent emptyStore).



(* ================================================================== *)
(** ** The store: lookup, update and removal by identifier *)

Section MapLookup.
Variable V : Type.
Variable key : V -> string.

(** [map.get(k)] *)
Definition mapGet (k : string) (m : list V) : option V :=
  find (fun x => String.eqb (key x) k) m.

(** [map.delete(k)]: the map without the entry of [k]. *)
Fixpoint mapDelete (k : string) (m : list V) : list V :=
  match m with
  | [] => []
  | x :: m' => if String.eqb (key x) k then m' else x :: mapDelete k m'
  end.

(** A list that stands for a [Map]: no key occurs twice. *)
Definition distinctKeys (m : list V) : Prop := NoDup (map key m).
End MapLookup.

(** [Partial<NormalizationRule>] as the routes build it: any of the fields
    but the identifier. *)
Record RuleUpdates : Type := mkRuleUpdates {
  up_field : option UTMField;
  up_matchType : option MatchType;
  up_matchValue : option string;
  up_normalizedValue : option string;
  up_priority : option Q;
  up_isActive : option bool
}.

(** [updates.x] when present, [existing.x] otherwise. *)
Definition orElse (A : Type) (update : option A) (existing : A) : A :=
  match update with
  | Some v => v
  | None => existing
  end.

(** [{ ...existing, ...updates }] *)
Definition mergeRule (existing : NormalizationRule) (updates : RuleUpdates)
  : NormalizationRule :=
  mkRule (r_id existing)
         (orElse (up_field updates) (r_field existing))
         (orElse (up_matchType updates) (r_matchType existing))
         (orElse (up_matchValue updates) (r_matchValue existing))
         (orElse (up_normalizedValue updates) (r_normalizedValue existing))
         (orElse (up_priority updates) (r_priority existing))
         (orElse (up_isActive updates) (r_isActive existing)).

Definition withRules (rules : list NormalizationRule) (st : DataStore) : DataStore :=
  mkStore rules (sourceMappings st) (channelCosts st) (utmRecords st)
          (attributionEvents st).

Definition getNormalizationRule (id : string) (st : DataStore)
  : option NormalizationRule :=
  mapGet r_id id (normalizationRules st).

Definition updateNormalizationRule (id : string) (updates : RuleUpdates)
  (st : DataStore) : option NormalizationRule * DataStore :=
  match mapGet r_id id (normalizationRules st) with
  | None => (None, st)
  | Some existing =>
      let updated := mergeRule existing updates in
      (Some updated, withRules (mapSet r_id updated (normalizationRules st)) st)
  end.

Definition deleteNormalizationRule (id : string) (st : DataStore) : bool * DataStore :=
  (hasKey r_id id (normalizationRules st),
   withRules (mapDelete r_id id (normalizationRules st)) st).

Definition getUTMRecord (id : string) (st : DataStore) : option UTMRecord :=
  mapGet u_id id (utmRecords st).

Definition getUTMRecordsByChannel (channel : string) (st : DataStore) : list UTMRecord :=
  filter (fun r => String.eqb (u_channel r) channel) (utmRecords st).

Definition getAttributionEvent (id : string) (st : DataStore) : option AttributionEvent :=
  mapGet e_id id (attributionEvents st).

(** [clear()] *)
Definition clear (st : DataStore) : DataStore := emptyStore.

(** [seedDefaults()] *)
Definition seedDefaults (st : DataStore) : DataStore :=
  fold_left (fun s m => Store.addSourceMapping m s) seedMappings
    (fold_left (fun s r => Store.addNormalizationRule r s) seedRules st).

(* ================================================================== *)
(** ** Validation of parameters ([NormalizationService.validateParams]) *)

Definition fieldName (f : UTMField) : string :=
  match f with
  | utm_source => "utm_source"
  | utm_medium => "utm_medium"
  | utm_campaign => "utm_campaign"
  | utm_term => "utm_term"
  | utm_content => "utm_content"
  end.

Definition allFields : list UTMField :=
  [utm_source; utm_medium; utm_campaign; utm_term; utm_content].

(** [Object.entries(params)].  The keys are taken in the order of the
    schema, the order in which a parsed request lists them; an object built
    with its keys in another order gives the same entries in that order. *)
Definition entries (params : UTMParams) : list (UTMField * string) :=
  flat_map (fun f => match getField f params with
                     | Some v => [(f, v)]
                     | None => []
                     end) allFields.

Definition missingSourceIssue : string := "Missing required utm_source parameter".
Definition shortSourceIssue : string := "utm_source is too short".

Definition encodingIssue (f : UTMField) : string :=
  (fieldName f ++ " may contain URL encoding that should be decoded")%string.

(** [value && (value.includes('%') || value.includes('+'))] *)
Definition looksEncoded (value : string) : bool :=
  match value with
  | EmptyString => false
  | _ => Str.hasChar "%" value || Str.hasChar "+" value
  end.

Record ValidationResult : Type := mkValidation {
  isValid : bool;
  issues : list string
}.

Definition validateParams (params : UTMParams) : ValidationResult :=
  let issues1 :=
    if negb (Str.truthy (p_source params)) then [missingSourceIssue] else [] in
  let issues2 :=
    match p_source params with
    | Some (String c s as source) =>
        if (String.length source <? 2)%nat then [shortSourceIssue] else []
    | _ => []
    end in
  let issues3 :=
    flat_map (fun entry => if looksEncoded (snd entry)
                           then [encodingIssue (fst entry)] else [])
             (entries params) in
  let issues := issues1 ++ issues2 ++ issues3 in
  mkValidation (List.length issues =? 0)%nat issues.

(* ================================================================== *)
(** ** The channels on offer ([SourceMappingService.getAvailableChannels]) *)

Definition defaultChannels : list string :=
  [ "Paid Search"; "Organic Search"; "Paid Social"; "Organic Social";
    "Email"; "Direct"; "Referral"; "Other" ]%string.

(** The channels of the active mappings and the default ones, each once,
    sorted as strings. *)
Definition getAvailableChannels (st : DataStore) : list string :=
  let mappings := Store.getAllSourceMappings st in
  sortBy Str.leb (unique (map m_channel mappings ++ defaultChannels)).

(** No code unit of the string is a line terminator. *)
Definition singleLine (s : string) : bool :=
  Str.all (fun c => negb (Regex.isLineTerminator c)) s.

(** The parameters with source and medium in lower case. *)
Definition lowerSourceMedium (params : UTMParams) : UTMParams :=
  mkParams (option_map Str.toLowerCase (p_source params))
           (option_map Str.toLowerCase (p_medium params))
           (p_campaign params) (p_term params) (p_content params).

(* ================================================================== *)
(** ** Fresh identifiers *)

(** From the world [w] on, [randomUUID] returns identifiers that are not in
    the store of attribution events and that differ from call to call. *)
Definition freshIds (randomUUID : nat -> string) (w : World) : Prop :=
  (forall k, (uuidCalls w <= k)%nat ->
             hasKey e_id (randomUUID k) (attributionEvents (store w)) = false)
  /\ (forall j k, (uuidCalls w <= j)%nat -> (uuidCalls w <= k)%nat ->
                  randomUUID j = randomUUID k -> j = k).

(* ================================================================== *)
(** ** Stores with finite numbers *)

(** Every stored cost, weight and revenue is a finite number. *)
Definition finiteStore (st : DataStore) : Prop :=
  Forall (fun c => JS.isFinite (c_cost c) = true) (channelCosts st)
  /\ Forall (fun e => JS.isFinite (e_attributionWeight e) = true
                      /\ JS.isFinite (e_revenue e) = true)
            (attributionEvents st).

(** Every stored weight is a positive real number, as [createAttribution]
    stores them. *)
Definition positiveWeights (st : DataStore) : Prop :=
  Forall (fun e => exists r, e_attributionWeight e = JS.Fin r /\ (0 < r)%R)
         (attributionEvents st).

(* ================================================================== *)
(** ** Ingestion ([src/routes/utm.ts]) *)

(** The body of an ingestion request after schema validation; the timestamp
    is the instant that the ISO string denotes. *)
Record IngestUTMRequest : Type := mkIngest {
  q_contactId : option string;
  q_dealId : option string;
  q_params : UTMParams;
  q_timestamp : option Z;
  q_revenue : option JS.jsnum
}.

Record IngestResponse : Type := mkIngestResponse {
  ir_record : UTMRecord;
  ir_validation : option ValidationResult
}.

Section Ingestion.

Variable regexTest : string -> string -> bool.
Variable formatSourceName : string -> string.
Variable randomUUID : nat -> string.
Variable now : Z.

(** The record that both ingestion routes build: normalize, map, fill in
    [timestamp || now] and [revenue || 0]. *)
Definition buildRecord (st : DataStore) (id : string) (req : IngestUTMRequest)
  : UTMRecord :=
  let params := q_params req in
  let normalizedParams := normalize regexTest st params in
  let mapping := mapToSource formatSourceName st normalizedParams in
  mkRecord id (q_contactId req) (q_dealId req) params normalizedParams
           (res_source mapping) (res_sourceDetail mapping) (res_channel mapping)
           (match q_timestamp req with Some t => t | None => now end)
           (match q_revenue req with
            | Some r => if JS.truthy r then r else JS.Fin 0
            | None => JS.Fin 0
            end).

(** [POST /api/utm] on a valid body: the record is stored whatever the
    validation says; the synchronisation with the CRM, which only reads the
    store and whose failure is swallowed, is left out. *)
Definition ingestUTM (req : IngestUTMRequest) (w : World) : IngestResponse * World :=
  let validation := validateParams (q_params req) in
  let record := buildRecord (store w) (randomUUID (uuidCalls w)) req in
  (mkIngestResponse record
     (if (0 <? List.length (issues validation))%nat then Some validation else None),
   mkWorld (Store.addUTMRecord record (store w)) (S (uuidCalls w))).



End Ingestion.

(** Setting the values of a list, one after the other. *)
Definition mapSetAll (V : Type) (key : V -> string) (vs m : list V) : list V :=
  fold_left (fun s v => mapSet key v s) vs m.

(* ================================================================== *)
(** * Properties *)

Unset Implicit Arguments.

Example toLowerCase_ex : Str.toLowerCase "GooGle Ads"%string = "google ads"%string.
Proof. reflexivity. Qed.


Example trim_ex : Str.trim "  a b  "%string = "a b"%string.
Proof. reflexivity. Qed.


Example includes_ex :
  Str.includes "my_email_x" "email" = true /\ Str.includes "mail" "email" = false
  /\ Str.endsWith "abc" "bc" = true /\ Str.endsWith "abc" "ab" = false.
Proof. repeat split; reflexivity. Qed.


Lemma UTMField_eqb_eq (a b : UTMField) : UTMField_eqb a b = true <-> a = b.
Proof. destruct a, b; simpl; split; intros H; try reflexivity; discriminate H. Qed.


Example normalize_seed :
  normalize noRegex seedRuleStore
    (mkParams (Some "fb") (Some "CPC") (Some "Summer Sale 2024") None (Some EmptyString))%string
  = (mkParams (Some "facebook") (Some "paid") (Some "summer_sale_2024") None None)%string.
Proof. reflexivity. Qed.


Example cleanValue_ex :
  cleanValue "google!@#" = "google"%string
  /\ cleanValue "test campaign (v1)" = "test_campaign_v1"%string.
Proof. split; reflexivity. Qed.

Example mapToSource_seed :
  res_channel (mapToSource plainName seedMappingStore
                 (mkParams (Some "Google") (Some "cpc") None None None)%string)
  = "Paid Search"%string
  /\ res_channel (mapToSource plainName seedMappingStore
                 (mkParams (Some "unknown_source") (Some "cpc") None None None)%string)
  = "Paid Social"%string
  /\ res_channel (mapToSource plainName seedMappingStore
                 (mkParams (Some "email") (Some "newsletter") None None None)%string)
  = "Email"%string.
Proof. repeat split; reflexivity. Qed.

Example matchesPattern_ex :
  matchesPattern "google.com" "google.*" = true
  /\ matchesPattern "googlexcom" "google.c*" = false
  /\ matchesPattern "a+b" "A+*" = true
  /\ matchesPattern "news-weekly" "*week*" = true.
Proof. repeat split; reflexivity. Qed.

(* ------------------------------------------------------------------ *)
(** ** The stable sort *)

Section SortFacts.

Variable A : Type.
Variable before : A -> A -> bool.

Lemma insertSorted_perm (x : A) (l : list A) :
  Permutation (insertSorted before x l) (x :: l).
Proof.
  induction l as [|y l IH]; simpl.
  - apply Permutation_refl.
  - destruct (before x y).
    + apply Permutation_refl.
    + eapply Permutation_trans; [apply perm_skip, IH | apply perm_swap].
Qed.

Lemma sortBy_perm (l : list A) : Permutation (sortBy before l) l.
Proof.
  induction l as [|x l IH]; simpl.
  - constructor.
  - eapply Permutation_trans; [apply insertSorted_perm | apply perm_skip, IH].
Qed.

Lemma sortBy_length (l : list A) : List.length (sortBy before l) = List.length l.
Proof. apply Permutation_length, sortBy_perm. Qed.

Lemma sortBy_In (x : A) (l : list A) : In x (sortBy before l) <-> In x l.
Proof.
  split; apply Permutation_in; [|apply Permutation_sym]; apply sortBy_perm.
Qed.

Lemma sortBy_nil_inv (l : list A) : sortBy before l = [] -> l = [].
Proof.
  intros H. pose proof (sortBy_perm l) as P. rewrite H in P.
  apply Permutation_nil in P. exact P.
Qed.

Hypothesis before_total : forall x y, before x y = false -> before y x = true.
Hypothesis before_trans :
  forall x y z, before x y = true -> before y z = true -> before x z = true.

Lemma insertSorted_sorted (x : A) (l : list A) :
  StronglySorted (fun a b => before a b = true) l ->
  StronglySorted (fun a b => before a b = true) (insertSorted before x l).
Proof.
  induction 1 as [|y l Hs IH Hall]; simpl.
  - constructor; constructor.
  - destruct (before x y) eqn:Hxy.
    + constructor.
      * constructor; assumption.
      * constructor; [assumption|].
        eapply Forall_impl; [|exact Hall].
        intros z Hz. eapply before_trans; eassumption.
    + constructor; [exact IH|].
      apply (Permutation_Forall (Permutation_sym (insertSorted_perm x l))).
      constructor; [apply before_total; exact Hxy | exact Hall].
Qed.

Lemma sortBy_sorted (l : list A) :
  StronglySorted (fun a b => before a b = true) (sortBy before l).
Proof.
  induction l as [|x l IH]; simpl.
  - constructor.
  - apply insertSorted_sorted, IH.
Qed.

End SortFacts.

Lemma StronglySorted_weaken (A : Type) (R1 R2 : A -> A -> Prop) (l : list A) :
  (forall a b, R1 a b -> R2 a b) -> StronglySorted R1 l -> StronglySorted R2 l.
Proof.
  intros Himp. induction 1 as [|x l Hs IH Hall]; constructor.
  - exact IH.
  - eapply Forall_impl; [|exact Hall]. intros b Hb. apply Himp, Hb.
Qed.

Lemma getUTMRecordsByContact_sorted (contactId : string) (st : DataStore) :
  StronglySorted (fun a b => (u_timestamp a <= u_timestamp b)%Z)
                 (Store.getUTMRecordsByContact contactId st).
Proof.
  unfold Store.getUTMRecordsByContact.
  eapply StronglySorted_weaken; [|apply sortBy_sorted].
  - intros a b H. apply Z.leb_le. exact H.
  - intros x y H. apply Z.leb_gt in H. apply Z.leb_le. lia.
  - intros x y z H1 H2. apply Z.leb_le in H1, H2. apply Z.leb_le. lia.
Qed.

(* ------------------------------------------------------------------ *)
(** ** Numbers *)

Lemma Rltb_true (x y : R) : JS.Rltb x y = true <-> (x < y)%R.
Proof.
  unfold JS.Rltb. destruct (Rlt_dec x y); split; intros H;
    try reflexivity; try assumption; try discriminate H; contradiction.
Qed.

Lemma Rltb_false (x y : R) : JS.Rltb x y = false <-> (y <= x)%R.
Proof.
  unfold JS.Rltb. destruct (Rlt_dec x y); split; intros H;
    try reflexivity; try discriminate H; lra.
Qed.

Lemma Rleb_true (x y : R) : JS.Rleb x y = true <-> (x <= y)%R.
Proof.
  unfold JS.Rleb. destruct (Rle_dec x y); split; intros H;
    try reflexivity; try assumption; try discriminate H; contradiction.
Qed.

Lemma Rleb_false (x y : R) : JS.Rleb x y = false <-> (y < x)%R.
Proof.
  unfold JS.Rleb. destruct (Rle_dec x y); split; intros H;
    try reflexivity; try discriminate H; lra.
Qed.

Lemma Reqb_true (x y : R) : JS.Reqb x y = true <-> x = y.
Proof.
  unfold JS.Reqb. destruct (Req_dec_T x y); split; intros H;
    try reflexivity; try assumption; try discriminate H; contradiction.
Qed.

Lemma Reqb_false (x y : R) : JS.Reqb x y = false <-> x <> y.
Proof.
  unfold JS.Reqb. destruct (Req_dec_T x y); split; intros H;
    try reflexivity; try assumption; try discriminate H; contradiction.
Qed.

(** The range of the finite numbers reaches beyond [2^64]. *)
Lemma maxFinite_large : (18446744073709551616 <= JS.maxFinite)%R.
Proof. unfold JS.maxFinite. apply IZR_le. apply Z.leb_le. vm_compute. reflexivity. Qed.

Lemma ofReal_cases (r : R) :
  (JS.ofReal r = JS.PosInf /\ (JS.maxFinite <= r)%R)
  \/ (JS.ofReal r = JS.NegInf /\ (r <= - JS.maxFinite)%R)
  \/ (JS.ofReal r = JS.Fin r /\ (- JS.maxFinite < r < JS.maxFinite)%R).
Proof.
  unfold JS.ofReal. destruct (JS.Rleb JS.maxFinite r) eqn:E1.
  - left. split; [reflexivity | apply Rleb_true; exact E1].
  - apply Rleb_false in E1. destruct (JS.Rleb r (- JS.maxFinite)) eqn:E2.
    + right; left. split; [reflexivity | apply Rleb_true; exact E2].
    + apply Rleb_false in E2. right; right. split; [reflexivity | lra].
Qed.

Lemma ofReal_Fin (r : R) :
  (- JS.maxFinite < r < JS.maxFinite)%R -> JS.ofReal r = JS.Fin r.
Proof.
  intros H. destruct (ofReal_cases r) as [[_ H1] | [[_ H1] | [H1 _]]];
    [lra | lra | exact H1].
Qed.

Lemma ofReal_small (r : R) :
  (- 18446744073709551616 < r < 18446744073709551616)%R -> JS.ofReal r = JS.Fin r.
Proof. intros H. pose proof maxFinite_large. apply ofReal_Fin. lra. Qed.


Lemma div_Fin (a b : R) :
  b <> 0%R -> (- JS.maxFinite < a / b < JS.maxFinite)%R ->
  JS.div (JS.Fin a) (JS.Fin b) = JS.Fin (a / b).
Proof.
  intros Hb Hr. simpl. apply Reqb_false in Hb. rewrite Hb. apply ofReal_Fin, Hr.
Qed.

Lemma div_small (a b : R) :
  b <> 0%R -> (- 18446744073709551616 < a / b < 18446744073709551616)%R ->
  JS.div (JS.Fin a) (JS.Fin b) = JS.Fin (a / b).
Proof. intros Hb Hr. pose proof maxFinite_large. apply div_Fin; [exact Hb | lra]. Qed.

(** Sums, differences and products of numbers far inside the range. *)
Ltac js_small :=
  repeat (progress (cbn [fold_left JS.add JS.mul JS.sub JS.neg
                         e_revenue e_attributionWeight c_cost];
                    rewrite ?ofReal_small by lra)).

Lemma gt_Fin (a b : R) : JS.gt (JS.Fin a) (JS.Fin b) = true <-> (b < a)%R.
Proof. simpl. apply Rltb_true. Qed.

Lemma fold_add_map (A : Type) (f : A -> JS.jsnum) (l : list A) (a : JS.jsnum) :
  fold_left (fun sum x => JS.add sum (f x)) l a
  = fold_left (fun sum w => JS.add sum w) (map f l) a.
Proof.
  revert a. induction l as [|x l IH]; intros a; simpl; [reflexivity | apply IH].
Qed.

(** Once a running sum of non-negative numbers has overflowed, it stays
    [Infinity]. *)
Lemma fold_add_PosInf (xs : list JS.jsnum) :
  Forall nonnegative xs ->
  fold_left (fun sum w => JS.add sum w) xs JS.PosInf = JS.PosInf.
Proof.
  induction 1 as [|x xs Hx _ IH]; [reflexivity|].
  cbn [fold_left]. destruct x; simpl in Hx; try contradiction; exact IH.
Qed.

(** A sum of non-negative numbers is [Infinity], or a finite number that
    bounds the start value and every summand. *)
Lemma fold_add_nonnegative (xs : list JS.jsnum) (a : R) :
  (0 <= a)%R -> Forall nonnegative xs ->
  fold_left (fun sum w => JS.add sum w) xs (JS.Fin a) = JS.PosInf
  \/ exists T,
       fold_left (fun sum w => JS.add sum w) xs (JS.Fin a) = JS.Fin T
       /\ (a <= T)%R
       /\ Forall (fun x => exists r, x = JS.Fin r /\ (0 <= r <= T)%R) xs.
Proof.
  intros Ha Hxs. revert a Ha. induction Hxs as [|x xs Hx Hxs IH]; intros a Ha.
  - right. exists a. repeat split; [lra | constructor].
  - cbn [fold_left]. destruct x as [r| | |]; simpl in Hx; try contradiction.
    + cbn [JS.add]. pose proof maxFinite_large as Hmax.
      destruct (ofReal_cases (a + r)) as [[-> _] | [[_ Hneg] | [-> _]]].
      * left. apply fold_add_PosInf, Hxs.
      * lra.
      * destruct (IH (a + r)%R ltac:(lra)) as [Hinf | (T & HT & HaT & Hall)].
        -- left. exact Hinf.
        -- right. exists T. repeat split; [exact HT | lra |].
           constructor; [exists r; split; [reflexivity | lra] | exact Hall].
    + left. cbn [JS.add]. apply fold_add_PosInf, Hxs.
Qed.

(* ------------------------------------------------------------------ *)
(** ** The weight vectors *)

Lemma setNth_last (A : Type) (x v : A) (n : nat) :
  setNth n v (repeat x (S n)) = repeat x n ++ [v].
Proof.
  induction n as [|n IH]; [reflexivity|].
  change (setNth (S n) v (repeat x (S (S n))))
    with (x :: setNth n v (repeat x (S n))).
  rewrite IH. reflexivity.
Qed.

Lemma firstTouchWeights_S (n : nat) :
  firstTouchWeights (S n) = JS.Fin 1 :: repeat (JS.Fin 0) n.
Proof. reflexivity. Qed.

Lemma lastTouchWeights_S (n : nat) :
  lastTouchWeights (S n) = repeat (JS.Fin 0) n ++ [JS.Fin 1].
Proof.
  unfold lastTouchWeights.
  replace (S n - 1)%nat with n by lia.
  change (0 <? S n)%nat with true. cbv iota. apply setNth_last.
Qed.

Lemma inverse_in_range (n : nat) :
  (0 < 1 / INR (S n) <= 1)%R /\ (- JS.maxFinite < 1 / INR (S n) < JS.maxFinite)%R.
Proof.
  pose proof maxFinite_large as Hmax.
  assert (Hn : (1 <= INR (S n))%R).
  { rewrite S_INR. pose proof (pos_INR n). lra. }
  assert (H0 : (0 < 1 / INR (S n))%R) by (apply Rdiv_lt_0_compat; lra).
  assert (H1 : (1 / INR (S n) <= 1)%R).
  { apply (Rmult_le_reg_r (INR (S n))); [lra|]. field_simplify; lra. }
  lra.
Qed.

Lemma linearWeights_S (n : nat) :
  linearWeights (S n) = repeat (JS.Fin (1 / INR (S n))) (S n).
Proof.
  unfold linearWeights, JS.ofNat. change (S n =? 0)%nat with false. cbv iota zeta.
  rewrite div_Fin; [reflexivity | | apply inverse_in_range].
  apply not_0_INR. discriminate.
Qed.

Lemma halfLifeOf_truthy (config : AttributionConfig) :
  JS.truthy (halfLifeOf config) = true.
Proof.
  assert (H7 : JS.truthy (JS.Fin 7) = true).
  { simpl. apply negb_true_iff, Reqb_false. lra. }
  unfold halfLifeOf. destruct (timeDecayHalfLife config) as [h|]; [|exact H7].
  destruct (JS.truthy h) eqn:Hh; [exact Hh | exact H7].
Qed.

Lemma signedInf_pos (pos : bool) (a : R) :
  (0 < a)%R -> JS.signedInf pos a = if pos then JS.PosInf else JS.NegInf.
Proof.
  intros Ha. unfold JS.signedInf. apply Rltb_true in Ha. rewrite Ha. reflexivity.
Qed.

Lemma truthy_nonzero (h : JS.jsnum) : JS.truthy h = true -> nonzero h.
Proof.
  destruct h as [a| | |]; simpl; intros H; try exact I; try discriminate H.
  apply negb_true_iff, Reqb_false in H. exact H.
Qed.

(** Scaling by a positive constant keeps a number away from zero and
    [NaN], whether or not the product overflows. *)
Lemma mul_nonzero (x : JS.jsnum) (c : R) :
  (0 < c)%R -> nonzero x -> nonzero (JS.mul x (JS.Fin c)).
Proof.
  intros Hc Hx. destruct x as [a| | |]; simpl in Hx; try contradiction.
  - cbn [JS.mul].
    destruct (ofReal_cases (a * c)) as [[-> _] | [[-> _] | [-> _]]]; simpl; try exact I.
    intros H. apply Rmult_integral in H. destruct H; [contradiction | lra].
  - cbn [JS.mul]. rewrite signedInf_pos by exact Hc. exact I.
  - cbn [JS.mul]. rewrite signedInf_pos by exact Hc. exact I.
Qed.

Lemma halfLifeMsOf_nonzero (h : JS.jsnum) :
  JS.truthy h = true -> nonzero (halfLifeMsOf h).
Proof.
  intros Ht. unfold halfLifeMsOf.
  repeat (apply mul_nonzero; [lra|]). apply truthy_nonzero, Ht.
Qed.

Lemma Rpower_half_pos (x : R) : (0 < Rpower (1 / 2) x)%R.
Proof. unfold Rpower. apply exp_pos. Qed.

Lemma powHalf_nonnegative (x : JS.jsnum) : x <> JS.NaN -> nonnegative (JS.powHalf x).
Proof.
  intros Hx. destruct x as [a| | |]; simpl; try exact I; [|lra|congruence].
  destruct (JS.Rleb 1075 a); [simpl; lra|].
  destruct (JS.Rleb a (-1024)); [exact I|].
  simpl. apply Rlt_le, Rpower_half_pos.
Qed.

(** A raw time-decay weight is zero, positive or [Infinity]. *)
Lemma rawWeight_nonnegative (now : Z) (h : JS.jsnum) (tp : UTMRecord) :
  JS.truthy h = true -> nonnegative (rawWeight now (halfLifeMsOf h) tp).
Proof.
  intros Ht. unfold rawWeight, JS.ofZ. apply powHalf_nonnegative.
  pose proof (halfLifeMsOf_nonzero h Ht) as Hm.
  destruct (halfLifeMsOf h) as [m| | |]; simpl in Hm; try contradiction;
    try discriminate.
  cbn [JS.div]. apply Reqb_false in Hm. rewrite Hm.
  destruct (ofReal_cases (IZR (now - u_timestamp tp) / m))
    as [[-> _] | [[-> _] | [-> _]]]; discriminate.
Qed.

(** Each time-decay weight is [NaN] or lies between zero and one. *)
Lemma timeDecayWeights_range (now : Z) (tps : list UTMRecord) (h : JS.jsnum) :
  JS.truthy h = true -> Forall shareOrNaN (timeDecayWeights now tps h).
Proof.
  intros Ht. unfold timeDecayWeights. fold (halfLifeMsOf h).
  destruct (List.length tps =? 0)%nat; [constructor|]. cbv zeta.
  assert (Hraw : Forall nonnegative (map (rawWeight now (halfLifeMsOf h)) tps)).
  { apply Forall_map, Forall_forall. intros tp _. apply rawWeight_nonnegative, Ht. }
  pose proof maxFinite_large as Hmax.
  destruct (fold_add_nonnegative _ 0%R ltac:(lra) Hraw) as [-> | (T & -> & HT & Hall)].
  - apply Forall_map. eapply Forall_impl; [|exact Hraw].
    intros x Hx. destruct x; simpl in Hx; try contradiction; simpl; [lra | exact I].
  - apply Forall_map. eapply Forall_impl; [|exact Hall].
    intros x (r & -> & Hr). cbn [JS.div].
    destruct (JS.Reqb T 0) eqn:E.
    + apply Reqb_true in E. unfold JS.signedInf.
      replace (JS.Rltb 0 r) with false by (symmetry; apply Rltb_false; lra).
      replace (JS.Rltb r 0) with false by (symmetry; apply Rltb_false; lra).
      exact I.
    + apply Reqb_false in E.
      assert (Hq : (0 <= r / T <= 1)%R).
      { split.
        - apply Rmult_le_pos; [lra|]. apply Rlt_le, Rinv_0_lt_compat. lra.
        - apply (Rmult_le_reg_r T); [lra|]. field_simplify; lra. }
      rewrite ofReal_Fin by lra. exact Hq.
Qed.

(** Whatever the model, each weight is [NaN] or lies between zero and one. *)
Lemma calculateWeights_range (now : Z) (tps : list UTMRecord)
  (config : AttributionConfig) :
  Forall shareOrNaN (calculateWeights now tps config).
Proof.
  assert (H0 : forall n, Forall shareOrNaN (repeat (JS.Fin 0) n)).
  { intros n. apply Forall_forall. intros x Hx. apply repeat_spec in Hx.
    subst x. simpl. lra. }
  assert (H1 : shareOrNaN (JS.Fin 1)) by (simpl; lra).
  unfold calculateWeights. destruct (model config).
  - destruct (List.length tps) as [|n]; [constructor|].
    rewrite firstTouchWeights_S. constructor; [exact H1 | apply H0].
  - destruct (List.length tps) as [|n]; [constructor|].
    rewrite lastTouchWeights_S. apply Forall_app. split; [apply H0|].
    constructor; [exact H1 | constructor].
  - destruct (List.length tps) as [|n]; [constructor|].
    rewrite linearWeights_S. apply Forall_forall. intros x Hx.
    apply repeat_spec in Hx. subst x. unfold shareOrNaN.
    pose proof (inverse_in_range n). lra.
  - apply timeDecayWeights_range, halfLifeOf_truthy.
Qed.

(** A weight that passes the test [weight > 0] of the loop and is [NaN] or
    a share is a positive share. *)
Lemma positive_share (x : JS.jsnum) :
  shareOrNaN x -> JS.gt x (JS.Fin 0) = true ->
  exists r, x = JS.Fin r /\ (0 < r <= 1)%R.
Proof.
  intros Hx Hpos. destruct x as [r| | |]; simpl in Hx; try contradiction.
  - apply gt_Fin in Hpos. exists r. split; [reflexivity | lra].
  - discriminate Hpos.
Qed.

(* ------------------------------------------------------------------ *)
(** ** The loop of [createAttribution] *)

Section EmitFacts.

Variable randomUUID : nat -> string.
Variable now : Z.
Variable contactId : string.
Variable dealId : option string.
Variable revenue : JS.jsnum.
Variable config : AttributionConfig.

Local Notation "'emit'" := (emitEvents randomUUID now contactId dealId revenue config).

Lemma emitEvents_cons_pos (tp : UTMRecord) (wt : JS.jsnum)
  (rest : list (UTMRecord * JS.jsnum)) (w : World) :
  JS.gt wt (JS.Fin 0) = true ->
  let event := newEvent now (randomUUID (uuidCalls w)) contactId dealId revenue
                        config tp wt in
  let w' := mkWorld (Store.addAttributionEvent event (store w)) (S (uuidCalls w)) in
  emit ((tp, wt) :: rest) w = (event :: fst (emit rest w'), snd (emit rest w')).
Proof.
  intros Hpos. cbv zeta. simpl. rewrite Hpos.
  destruct (emitEvents _ _ _ _ _ _ rest _) as [events w'']. reflexivity.
Qed.

Lemma emitEvents_cons_skip (tp : UTMRecord) (wt : JS.jsnum)
  (rest : list (UTMRecord * JS.jsnum)) (w : World) :
  JS.gt wt (JS.Fin 0) = false ->
  emit ((tp, wt) :: rest) w = emit rest w.
Proof. intros Hpos. simpl. rewrite Hpos. reflexivity. Qed.

Lemma emitEvents_pairs (pairs : list (UTMRecord * JS.jsnum)) (w : World) :
  map (fun e => (e_utmRecordId e, e_attributionWeight e)) (fst (emit pairs w))
  = map (fun p => (u_id (fst p), snd p)) (filter positive pairs).
Proof.
  revert w. induction pairs as [|[tp wt] rest IH]; intros w; [reflexivity|].
  simpl filter. unfold positive at 1. simpl snd.
  destruct (JS.gt wt (JS.Fin 0)) eqn:Hpos.
  - rewrite emitEvents_cons_pos by exact Hpos. simpl. rewrite IH. reflexivity.
  - rewrite emitEvents_cons_skip by exact Hpos. apply IH.
Qed.

Lemma emitEvents_weights (pairs : list (UTMRecord * JS.jsnum)) (w : World) :
  map e_attributionWeight (fst (emit pairs w)) = map snd (filter positive pairs).
Proof.
  pose proof (f_equal (map snd) (emitEvents_pairs pairs w)) as H.
  rewrite !map_map in H. exact H.
Qed.

Lemma emitEvents_store (pairs : list (UTMRecord * JS.jsnum)) (w : World) :
  store (snd (emit pairs w)) = addAll (fst (emit pairs w)) (store w)
  /\ uuidCalls (snd (emit pairs w))
     = (uuidCalls w + List.length (fst (emit pairs w)))%nat.
Proof.
  revert w. induction pairs as [|[tp wt] rest IH]; intros w.
  - simpl. split; [reflexivity | lia].
  - destruct (JS.gt wt (JS.Fin 0)) eqn:Hpos.
    + rewrite emitEvents_cons_pos by exact Hpos. simpl.
      destruct (IH (mkWorld
                      (Store.addAttributionEvent
                         (newEvent now (randomUUID (uuidCalls w)) contactId dealId
                                   revenue config tp wt) (store w))
                      (S (uuidCalls w)))) as [Hs Hu].
      simpl in Hs, Hu. split; [exact Hs | rewrite Hu; lia].
    + rewrite emitEvents_cons_skip by exact Hpos. apply IH.
Qed.

Lemma emitEvents_revenue (pairs : list (UTMRecord * JS.jsnum)) (w : World) :
  Forall (fun e => e_revenue e = revenue /\ e_dealId e = dealId
                   /\ e_contactId e = contactId
                   /\ e_attributionModel e = model config)
         (fst (emit pairs w)).
Proof.
  revert w. induction pairs as [|[tp wt] rest IH]; intros w; [constructor|].
  destruct (JS.gt wt (JS.Fin 0)) eqn:Hpos.
  - rewrite emitEvents_cons_pos by exact Hpos. simpl. constructor.
    + repeat split.
    + apply IH.
  - rewrite emitEvents_cons_skip by exact Hpos. apply IH.
Qed.

Lemma emitEvents_none (pairs : list (UTMRecord * JS.jsnum)) (w : World) :
  Forall (fun p => positive p = false) pairs -> emit pairs w = ([], w).
Proof.
  induction 1 as [|[tp wt] rest Hp _ IH]; [reflexivity|].
  rewrite emitEvents_cons_skip by exact Hp. exact IH.
Qed.

End EmitFacts.

Lemma createAttribution_unfold (randomUUID : nat -> string) (now : Z)
  (contactId : string) (dealId : option string) (revenue : JS.jsnum)
  (config : AttributionConfig) (w : World) :
  Store.getUTMRecordsByContact contactId (store w) <> [] ->
  createAttribution randomUUID now contactId dealId revenue config w
  = emitEvents randomUUID now contactId dealId revenue config
      (combine (Store.getUTMRecordsByContact contactId (store w))
               (calculateWeights now (Store.getUTMRecordsByContact contactId (store w))
                                 config)) w.
Proof.
  intros Hne. unfold createAttribution.
  destruct (Store.getUTMRecordsByContact contactId (store w)); [congruence|].
  reflexivity.
Qed.

(** Every event that [createAttribution] emits carries a finite weight that
    is positive and at most one. *)
Lemma createAttribution_shares (randomUUID : nat -> string) (now : Z)
  (contactId : string) (dealId : option string) (revenue : JS.jsnum)
  (config : AttributionConfig) (w : World) :
  Forall (fun x => exists r, x = JS.Fin r /\ (0 < r <= 1)%R)
         (map e_attributionWeight
              (fst (createAttribution randomUUID now contactId dealId revenue config w))).
Proof.
  destruct (Store.getUTMRecordsByContact contactId (store w)) as [|tp rest] eqn:Etps.
  - unfold createAttribution. rewrite Etps. constructor.
  - assert (Hne : Store.getUTMRecordsByContact contactId (store w) <> [])
      by (rewrite Etps; discriminate).
    rewrite createAttribution_unfold by exact Hne.
    rewrite emitEvents_weights. apply Forall_map, Forall_forall.
    intros [tp' wt] Hin. apply filter_In in Hin. destruct Hin as [Hin Hpos].
    apply in_combine_r in Hin. unfold positive in Hpos. cbn [snd] in *.
    pose proof (calculateWeights_range now
                  (Store.getUTMRecordsByContact contactId (store w)) config) as Hr.
    rewrite Forall_forall in Hr. apply positive_share; [apply Hr, Hin | exact Hpos].
Qed.

Lemma halfLifeMsOf_Fin (a : R) :
  (- 1000000 < a < 1000000)%R ->
  halfLifeMsOf (JS.Fin a) = JS.Fin (a * 24 * 60 * 60 * 1000).
Proof.
  intros Ha. unfold halfLifeMsOf.
  repeat (cbn [JS.mul]; rewrite ofReal_small by lra). reflexivity.
Qed.

Lemma powHalf_Fin (a : R) :
  (-1024 < a < 1075)%R -> JS.powHalf (JS.Fin a) = JS.Fin (Rpower (1 / 2) a).
Proof.
  intros Ha. unfold JS.powHalf.
  replace (JS.Rleb 1075 a) with false by (symmetry; apply Rleb_false; lra).
  replace (JS.Rleb a (-1024)) with false by (symmetry; apply Rleb_false; lra).
  reflexivity.
Qed.

Lemma powHalf_underflow (a : R) : (1075 <= a)%R -> JS.powHalf (JS.Fin a) = JS.Fin 0.
Proof.
  intros Ha. unfold JS.powHalf. apply Rleb_true in Ha. rewrite Ha. reflexivity.
Qed.

Lemma truthy_Fin (a : R) : a <> 0%R -> JS.truthy (JS.Fin a) = true.
Proof. intros Ha. simpl. apply negb_true_iff, Reqb_false, Ha. Qed.

(* ------------------------------------------------------------------ *)
(** ** Attribution: weights of a conversion *)

(** C1.  [createAttribution] under [time_decay] with a half-life of 1/128
    day, for the contact of the sample store, whose two touchpoints are 31
    and 17 days old at the evaluation time: both raw weights
    [Math.pow(0.5, 3968)] and [Math.pow(0.5, 2176)] underflow to zero, their
    sum is zero, both weights are [NaN], and no event is emitted or stored
    although the contact has two touchpoints. *)
Theorem createAttribution_underflow_emits_nothing :
  let tps := Store.getUTMRecordsByContact "contact-1" sampleStore in
  map (fun tp => (sampleNow - u_timestamp tp)%Z) tps
  = [(31 * 86400000)%Z; (17 * 86400000)%Z]
  /\ calculateWeights sampleNow tps shortHalfLife = [JS.NaN; JS.NaN]
  /\ createAttribution sampleUUID sampleNow "contact-1" None (JS.Fin 1000)
                       shortHalfLife sampleWorld
     = ([], sampleWorld).
Proof.
  cbv zeta.
  assert (Hw : calculateWeights sampleNow
                 (Store.getUTMRecordsByContact "contact-1" sampleStore) shortHalfLife
               = [JS.NaN; JS.NaN]).
  { unfold calculateWeights, halfLifeOf, shortHalfLife.
    cbn [model timeDecayHalfLife]. rewrite truthy_Fin by lra.
    unfold timeDecayWeights. fold (halfLifeMsOf (JS.Fin (1 / 128))).
    rewrite halfLifeMsOf_Fin by lra.
    change (Store.getUTMRecordsByContact "contact-1" sampleStore)
      with [sampleRecord "utm-1" "Paid Search" 1704067200000;
            sampleRecord "utm-2" "Paid Social" 1705276800000].
    cbn [List.length Nat.eqb map]. cbv zeta.
    unfold rawWeight, JS.ofZ, sampleNow. cbn [u_timestamp sampleRecord].
    change (1706745600000 - 1704067200000)%Z with 2678400000%Z.
    change (1706745600000 - 1705276800000)%Z with 1468800000%Z.
    rewrite !div_small by lra.
    rewrite !powHalf_underflow by lra.
    cbn [fold_left]. repeat (cbn [JS.add]; rewrite ofReal_small by lra).
    cbn [JS.div].
    replace (JS.Reqb (0 + 0 + 0) 0) with true by (symmetry; apply Reqb_true; lra).
    unfold JS.signedInf.
    replace (JS.Rltb 0 0) with false by (symmetry; apply Rltb_false; lra).
    reflexivity. }
  split; [reflexivity|]. split; [exact Hw|].
  rewrite createAttribution_unfold by discriminate.
  change (store sampleWorld) with sampleStore. rewrite Hw.
  apply emitEvents_none. repeat constructor.
Qed.

(** C9.  Every event that [createAttribution] emits carries a weight that is
    strictly positive and at most one, for every model, half-life and
    touchpoint timestamp (past or future of the evaluation time). *)
Theorem createAttribution_weight_range :
  forall (randomUUID : nat -> string) (now : Z) (contactId : string)
         (dealId : option string) (revenue : JS.jsnum)
         (config : AttributionConfig) (w : World),
    Forall (fun e => JS.gt (e_attributionWeight e) (JS.Fin 0) = true
                     /\ JS.le (e_attributionWeight e) (JS.Fin 1))
           (fst (createAttribution randomUUID now contactId dealId revenue config w)).
Proof.
  intros randomUUID now contactId dealId revenue config w.
  apply (proj1 (Forall_map e_attributionWeight
                  (fun x => JS.gt x (JS.Fin 0) = true /\ JS.le x (JS.Fin 1)) _)).
  eapply Forall_impl;
    [|apply (createAttribution_shares randomUUID now contactId dealId revenue config w)].
  intros x (r & -> & Hr). split; [apply gt_Fin; lra | simpl; lra].
Qed.

Example sampleStore_touchpoints :
  map u_id (Store.getUTMRecordsByContact "contact-1" sampleStore)
  = ["utm-1"; "utm-2"]%string.
Proof. reflexivity. Qed.

Lemma optIs_true (a : option string) (b : string) :
  optIs a b = true <-> a = Some b.
Proof.
  destruct a as [s|]; simpl.
  - rewrite String.eqb_eq. split; [intros ->; reflexivity | intros [= ->]; reflexivity].
  - split; discriminate.
Qed.

Lemma getUTMRecordsByContact_In (contactId : string) (st : DataStore) (tp : UTMRecord) :
  In tp (Store.getUTMRecordsByContact contactId st)
  <-> In tp (utmRecords st) /\ u_contactId tp = Some contactId.
Proof.
  unfold Store.getUTMRecordsByContact.
  rewrite sortBy_In, filter_In, optIs_true. reflexivity.
Qed.

Lemma combine_zero_weights (tps : list UTMRecord) (n : nat) :
  Forall (fun p => positive p = false) (combine tps (repeat (JS.Fin 0) n)).
Proof.
  revert n. induction tps as [|tp tps IH]; intros n; [constructor|].
  destruct n as [|n]; simpl; [constructor|]. constructor; [|apply IH].
  unfold positive. simpl. apply Rltb_false. lra.
Qed.

(** C6.  With at least one stored touchpoint, the first-touch model yields
    exactly one event; its weight is one and it points at a touchpoint of
    the entity whose timestamp is the earliest of all. *)
Theorem first_touch_credits_earliest :
  forall (randomUUID : nat -> string) (now : Z) (contactId : string)
         (dealId : option string) (revenue : JS.jsnum)
         (halfLife : option JS.jsnum) (w : World),
    (1 <= List.length (Store.getUTMRecordsByContact contactId (store w)))%nat ->
    exists first event,
      fst (createAttribution randomUUID now contactId dealId revenue
             (mkConfig first_touch halfLife) w) = [event]
      /\ e_attributionWeight event = JS.Fin 1
      /\ e_utmRecordId event = u_id first
      /\ In first (utmRecords (store w))
      /\ u_contactId first = Some contactId
      /\ (forall tp, In tp (utmRecords (store w)) ->
                     u_contactId tp = Some contactId ->
                     (u_timestamp first <= u_timestamp tp)%Z).
Proof.
  intros randomUUID now contactId dealId revenue halfLife w Hn.
  pose proof (getUTMRecordsByContact_sorted contactId (store w)) as Hsorted.
  pose proof (getUTMRecordsByContact_In contactId (store w)) as Hin.
  assert (Hne : Store.getUTMRecordsByContact contactId (store w) <> []).
  { intros E. rewrite E in Hn. simpl in Hn. lia. }
  rewrite createAttribution_unfold by exact Hne.
  destruct (Store.getUTMRecordsByContact contactId (store w)) as [|first rest];
    [congruence|].
  exists first.
  exists (newEvent now (randomUUID (uuidCalls w)) contactId dealId revenue
                   (mkConfig first_touch halfLife) first (JS.Fin 1)).
  repeat split.
  - unfold calculateWeights. simpl model. cbv iota. simpl List.length.
    rewrite firstTouchWeights_S. simpl combine.
    rewrite emitEvents_cons_pos by (apply gt_Fin; lra).
    rewrite emitEvents_none by apply combine_zero_weights. reflexivity.
  - apply (Hin first). left; reflexivity.
  - apply (Hin first). left; reflexivity.
  - intros tp Htp Hc.
    assert (Hmem : In tp (first :: rest)) by (apply Hin; split; assumption).
    inversion Hsorted as [|x l Hs Hall]; subst.
    destruct Hmem as [<- | Hmem]; [lia|].
    rewrite Forall_forall in Hall. apply Hall, Hmem.
Qed.

Lemma first_touch_credits_earliest_witness :
  (1 <= List.length (Store.getUTMRecordsByContact "contact-1" (store sampleWorld)))%nat
  /\ exists first event,
      fst (createAttribution sampleUUID sampleNow "contact-1" None (JS.Fin 1000)
             (mkConfig first_touch None) sampleWorld) = [event]
      /\ e_attributionWeight event = JS.Fin 1
      /\ e_utmRecordId event = u_id first
      /\ In first (utmRecords (store sampleWorld))
      /\ u_contactId first = Some "contact-1"%string
      /\ (forall tp, In tp (utmRecords (store sampleWorld)) ->
                     u_contactId tp = Some "contact-1"%string ->
                     (u_timestamp first <= u_timestamp tp)%Z).
Proof.
  split.
  - simpl. lia.
  - apply (first_touch_credits_earliest sampleUUID sampleNow "contact-1" None
             (JS.Fin 1000) None sampleWorld).
    simpl. lia.
Defined.

(* ------------------------------------------------------------------ *)
(** ** Attribution: recalculation *)

(** C10.  Without an existing attribution event of the contact,
    [recalculateAttribution] returns no event and leaves the world, and so
    the store of attribution events, unchanged, whatever touchpoints the
    contact has. *)
Theorem recalculateAttribution_without_events :
  forall (randomUUID : nat -> string) (now : Z) (contactId : string)
         (newConfig : AttributionConfig) (w : World),
    Store.getAttributionEventsByContact contactId (store w) = [] ->
    recalculateAttribution randomUUID now contactId newConfig w = ([], w).
Proof.
  intros randomUUID now contactId newConfig w Hnone.
  unfold recalculateAttribution. rewrite Hnone. reflexivity.
Qed.

Lemma recalculateAttribution_without_events_witness :
  Store.getAttributionEventsByContact "contact-1" (store sampleWorld) = []
  /\ List.length (Store.getUTMRecordsByContact "contact-1" (store sampleWorld)) = 2%nat
  /\ recalculateAttribution sampleUUID sampleNow "contact-1"
       (mkConfig linear None) sampleWorld = ([], sampleWorld).
Proof.
  split; [reflexivity|]. split; [reflexivity|].
  apply (recalculateAttribution_without_events sampleUUID sampleNow "contact-1"
           (mkConfig linear None) sampleWorld).
  reflexivity.
Defined.

(* ------------------------------------------------------------------ *)
(** ** Attribution: time decay *)

Lemma Rpower_half_minus_one : Rpower (1 / 2) (-1) = 2%R.
Proof.
  replace (-1)%R with (- (1))%R by lra.
  rewrite Rpower_Ropp, Rpower_1 by lra. field.
Qed.

(** C5.  [calculateWeights] under [time_decay] with a half-life of -7 days,
    evaluated seven days after the older of two touchpoints and at the time
    of the newer one: the raw weights are 2 and 1, and the older touchpoint
    gets the larger weight. *)
Lemma time_decay_negative_half_life :
  let older := sampleRecord "utm-1" "Paid Search" 0 in
  let newer := sampleRecord "utm-2" "Paid Social" 604800000 in
  let config := mkConfig time_decay (Some (JS.Fin (-7))) in
  (u_timestamp older <= u_timestamp newer)%Z
  /\ calculateWeights 604800000 [older; newer] config
     = [JS.Fin (2 / 3); JS.Fin (1 / 3)]
  /\ ~ JS.le (JS.Fin (2 / 3)) (JS.Fin (1 / 3)).
Proof.
  cbv zeta. split; [simpl; lia|]. split; [|simpl; lra].
  unfold calculateWeights, halfLifeOf. cbn [model timeDecayHalfLife].
  rewrite truthy_Fin by lra.
  unfold timeDecayWeights. fold (halfLifeMsOf (JS.Fin (-7))).
  rewrite halfLifeMsOf_Fin by lra.
  cbn [List.length Nat.eqb map]. cbv zeta.
  unfold rawWeight, JS.ofZ. cbn [u_timestamp sampleRecord].
  change (604800000 - 0)%Z with 604800000%Z.
  change (604800000 - 604800000)%Z with 0%Z.
  rewrite !div_small by lra.
  replace (604800000 / (-7 * 24 * 60 * 60 * 1000))%R with (-1)%R by lra.
  replace (0 / (-7 * 24 * 60 * 60 * 1000))%R with 0%R by lra.
  rewrite !powHalf_Fin by lra.
  rewrite Rpower_half_minus_one, Rpower_O by lra.
  cbn [fold_left]. repeat (cbn [JS.add]; rewrite ofReal_small by lra).
  rewrite !div_small by lra.
  f_equal; [f_equal; lra | f_equal; f_equal; lra].
Qed.

(* ------------------------------------------------------------------ *)
(** ** Normalization *)

Lemma Qle_bool_total (x y : Q) : Qle_bool x y = false -> Qle_bool y x = true.
Proof.
  intros H. apply Qle_bool_iff. apply Qlt_le_weak, Qnot_le_lt.
  intros Hle. apply Qle_bool_iff in Hle. congruence.
Qed.

Lemma Qle_bool_trans (x y z : Q) :
  Qle_bool x y = true -> Qle_bool y z = true -> Qle_bool x z = true.
Proof.
  rewrite !Qle_bool_iff. apply Qle_trans.
Qed.

Lemma getAllNormalizationRules_sorted (st : DataStore) :
  StronglySorted (fun a b => (r_priority b <= r_priority a)%Q)
                 (Store.getAllNormalizationRules st).
Proof.
  unfold Store.getAllNormalizationRules.
  eapply StronglySorted_weaken; [|apply sortBy_sorted].
  - intros a b H. apply Qle_bool_iff. exact H.
  - intros x y. apply Qle_bool_total.
  - intros x y z H1 H2. eapply Qle_bool_trans; eassumption.
Qed.

Lemma getField_setField (f g : UTMField) (v : string) (p : UTMParams) :
  getField f (setField g v p) = if UTMField_eqb g f then Some v else getField f p.
Proof. destruct f, g; reflexivity. Qed.

Section NormalizationFacts.

Variable regexTest : string -> string -> bool.

Lemma applyRule_getField (f : UTMField) (rule : NormalizationRule) (p : UTMParams) :
  getField f (applyRule regexTest rule p)
  = if UTMField_eqb (r_field rule) f
    then chainStep regexTest (getField f p) rule
    else getField f p.
Proof.
  unfold applyRule, chainStep, fires.
  destruct (UTMField_eqb (r_field rule) f) eqn:Ef.
  - apply UTMField_eqb_eq in Ef. subst f.
    destruct (getField (r_field rule) p) as [[|c s]|] eqn:Ev.
    + rewrite Ev. reflexivity.
    + simpl. destruct (matchesRule regexTest (String c s) rule).
      * rewrite getField_setField.
        replace (UTMField_eqb (r_field rule) (r_field rule)) with true
          by (symmetry; apply UTMField_eqb_eq; reflexivity).
        reflexivity.
      * exact Ev.
    + exact Ev.
  - destruct (getField (r_field rule) p) as [[|c s]|]; try reflexivity.
    destruct (matchesRule regexTest (String c s) rule); [|reflexivity].
    rewrite getField_setField, Ef. reflexivity.
Qed.

Lemma applyRules_getField (f : UTMField) (rules : list NormalizationRule)
  (p : UTMParams) :
  getField f (applyRules regexTest rules p)
  = ruleChain regexTest f rules (getField f p).
Proof.
  revert p. induction rules as [|rule rest IH]; intros p; [reflexivity|].
  simpl applyRules. rewrite IH, applyRule_getField.
  unfold ruleChain. simpl filter.
  destruct (UTMField_eqb (r_field rule) f); reflexivity.
Qed.

Lemma cleanupParams_getField (f : UTMField) (p : UTMParams) :
  getField f (cleanupParams p) = cleanupField (getField f p).
Proof. destruct f; reflexivity. Qed.

End NormalizationFacts.

Example normalize_chained :
  normalize noRegex chainedStore (mkParams (Some "FB") None None None None)%string
  = (mkParams (Some "meta") None None None None)%string
  /\ firstMatchWins noRegex utm_source (Store.getAllNormalizationRules chainedStore)
       (Some "FB"%string) = Some "facebook"%string.
Proof. split; reflexivity. Qed.

(** C2.  [normalize] loads the active rules in descending priority order and
    is, field by field, the fold of the rule chain over them followed by the
    cleanup: each rule that matches the current value of its field, rewritten
    or not, overwrites it.  The fold does not stop at the first match: on
    the chained rules a lower-priority rule fires again on the value that the
    first rule wrote, where an early exit would keep that value. *)
Theorem normalize_is_rule_chain_fold :
  forall (regexTest : string -> string -> bool),
    (forall (st : DataStore) (params : UTMParams),
        let rules := Store.getAllNormalizationRules st in
        Permutation rules (filter r_isActive (normalizationRules st))
        /\ StronglySorted (fun a b => (r_priority b <= r_priority a)%Q) rules
        /\ forall f : UTMField,
             getField f (normalize regexTest st params)
             = cleanupField (ruleChain regexTest f rules (getField f params)))
    /\ (let rules := Store.getAllNormalizationRules chainedStore in
        let params := mkParams (Some "fb"%string) None None None None in
        getField utm_source (normalize regexTest chainedStore params)
        = Some "meta"%string
        /\ cleanupField (firstMatchWins regexTest utm_source rules
                           (getField utm_source params))
           = Some "facebook"%string).
Proof.
  intros regexTest. split.
  - intros st params rules. repeat split.
    + apply sortBy_perm.
    + apply getAllNormalizationRules_sorted.
    + intros f. unfold normalize.
      rewrite cleanupParams_getField, applyRules_getField. reflexivity.
  - split; reflexivity.
Qed.

Lemma removeNonSlug_all (s : string) :
  Str.all Str.isSlugChar (Str.removeNonSlug s) = true.
Proof.
  induction s as [|c s IH]; [reflexivity|]. simpl.
  destruct (Str.isSlugChar c) eqn:Ec; [|exact IH].
  simpl. rewrite Ec. exact IH.
Qed.

(** C7, as amended.  After the rules were applied, [normalize] cleans every
    field on its own: a field that is absent or empty is dropped, any other
    field is kept with its cleaned value (lower case, trimmed, white space
    runs replaced by one underscore, every other character outside
    [a-z0-9_-] removed).  So every field of the output is a string over that
    character set; it may be the empty string. *)
Theorem normalize_output_is_clean :
  forall (regexTest : string -> string -> bool) (st : DataStore)
         (params : UTMParams) (f : UTMField),
    let after := applyRules regexTest (Store.getAllNormalizationRules st) params in
    getField f (normalize regexTest st params)
    = (if Str.truthy (getField f after)
       then option_map cleanValue (getField f after)
       else None)
    /\ match getField f (normalize regexTest st params) with
       | Some v => Str.all Str.isSlugChar v = true
       | None => True
       end.
Proof.
  intros regexTest st params f after.
  unfold normalize. fold after. rewrite cleanupParams_getField.
  destruct (getField f after) as [[|c s]|]; simpl; repeat split.
  unfold cleanValue. apply removeNonSlug_all.
Qed.

(** C7 fails as it is stated: a value made of characters that the cleanup
    removes stays in the output, as the empty string. *)
Lemma normalize_keeps_emptied_field :
  getField utm_source
    (normalize noRegex emptyStore (mkParams (Some "!@#"%string) None None None None))
  = Some EmptyString.
Proof. reflexivity. Qed.

(* ------------------------------------------------------------------ *)
(** ** Source mapping *)

Lemma isMeta_false (c : ascii) :
  Regex.isMeta c = false ->
  Ascii.eqb c Regex.backslash = false /\ Ascii.eqb c "." = false.
Proof.
  unfold Regex.isMeta. simpl. intros H.
  repeat (apply orb_false_iff in H; destruct H as [? H]).
  split; assumption.
Qed.

Lemma isMeta_not_star (c : ascii) : Regex.isMeta c = true -> Ascii.eqb c "*" = false.
Proof.
  destruct (Ascii.eqb c "*") eqn:E; [|reflexivity].
  apply Ascii.eqb_eq in E. subst c. intros H. discriminate H.
Qed.

(** The two replacements followed by the reading of the regular expression
    amount to translating the pattern code unit by code unit. *)
Lemma parse_compiled (p : string) :
  Regex.parse (Regex.starToDotStar (Regex.escapeMeta p))
  = map itemOf (list_ascii_of_string p).
Proof.
  induction p as [|c p IH]; [reflexivity|].
  simpl Regex.escapeMeta. simpl list_ascii_of_string. simpl map.
  destruct (Regex.isMeta c) eqn:Em.
  - pose proof (isMeta_not_star c Em) as Hc.
    simpl Regex.starToDotStar. rewrite Hc.
    simpl Regex.parse. rewrite IH. unfold itemOf. rewrite Hc. reflexivity.
  - destruct (isMeta_false c Em) as [Hb Hd].
    simpl Regex.starToDotStar. rewrite <- IH. unfold itemOf.
    destruct (Ascii.eqb c "*") eqn:Hs.
    + reflexivity.
    + destruct (Regex.starToDotStar (Regex.escapeMeta p)) as [|d rest] eqn:E.
      * reflexivity.
      * cbn [Regex.parse]. rewrite Hb, Hd. reflexivity.
Qed.

Lemma fullMatch_star (items : list Regex.Item) (v : string) :
  Regex.fullMatch (Regex.AnyStar :: items) v
  = Regex.fullMatch items v
    || match v with
       | String d v' =>
           negb (Regex.isLineTerminator d)
           && Regex.fullMatch (Regex.AnyStar :: items) v'
       | EmptyString => false
       end.
Proof. destruct v; reflexivity. Qed.

Lemma fullMatch_Wildcard (p v : string) :
  Regex.fullMatch (map itemOf (list_ascii_of_string p)) v = true <-> Wildcard p v.
Proof.
  split.
  - revert v. induction p as [|c p IH]; intros v H.
    + destruct v; [constructor | discriminate H].
    + simpl list_ascii_of_string in H. simpl map in H. unfold itemOf at 1 in H.
      destruct (Ascii.eqb c "*") eqn:Hs.
      * apply Ascii.eqb_eq in Hs. subst c.
        induction v as [|d v IHv].
        -- rewrite fullMatch_star in H. rewrite orb_false_r in H.
           apply W_star_skip, IH, H.
        -- rewrite fullMatch_star in H. apply orb_true_iff in H.
           destruct H as [H | H].
           ++ apply W_star_skip, IH, H.
           ++ apply andb_true_iff in H. destruct H as [Hd H].
              apply W_star_take; [apply negb_true_iff, Hd | apply IHv, H].
      * destruct v as [|d v]; [discriminate H|].
        simpl in H. apply andb_true_iff in H. destruct H as [Hc H].
        apply Ascii.eqb_eq in Hc. subst d.
        apply W_char; [|apply IH, H].
        intros ->. discriminate Hs.
  - induction 1 as [|c p v Hc _ IH|p v _ IH|d p v Hd _ IH].
    + reflexivity.
    + simpl list_ascii_of_string. simpl map. unfold itemOf at 1.
      replace (Ascii.eqb c "*") with false
        by (symmetry; apply Ascii.eqb_neq; exact Hc).
      simpl. rewrite Ascii.eqb_refl. exact IH.
    + simpl list_ascii_of_string. simpl map. unfold itemOf at 1.
      rewrite Ascii.eqb_refl, fullMatch_star.
      rewrite IH. reflexivity.
    + simpl list_ascii_of_string in *. simpl map in *. unfold itemOf at 1 in IH.
      unfold itemOf at 1. rewrite Ascii.eqb_refl in *.
      rewrite fullMatch_star, Hd, IH. simpl. apply orb_true_r.
Qed.

Lemma Wildcard_plain (p v : string) :
  Str.hasChar "*" p = false -> (Wildcard p v <-> v = p).
Proof.
  intros Hp. split.
  - induction 1 as [|c p v Hc _ IH|p v _ _|d p v _ _ _].
    + reflexivity.
    + simpl in Hp. apply orb_false_iff in Hp. rewrite IH by apply Hp. reflexivity.
    + simpl in Hp. discriminate Hp.
    + simpl in Hp. discriminate Hp.
  - intros ->. induction p as [|c p IH]; [constructor|].
    simpl in Hp. apply orb_false_iff in Hp. destruct Hp as [Hc Hp].
    apply W_char; [|apply IH, Hp].
    intros ->. discriminate Hc.
Qed.

(** [matchesPattern] decides the wildcard semantics of the lower-cased
    pattern. *)
Lemma matchesPattern_Wildcard (value pattern : string) :
  matchesPattern value pattern = true <-> Wildcard (Str.toLowerCase pattern) value.
Proof.
  unfold matchesPattern.
  destruct (Str.hasChar "*" (Str.toLowerCase pattern)) eqn:Hs.
  - rewrite parse_compiled. apply fullMatch_Wildcard.
  - rewrite (Wildcard_plain _ value Hs). apply String.eqb_eq.
Qed.

Lemma satisfies_Satisfies (utmSource utmMedium : string) (mapping : SourceMapping) :
  satisfies utmSource utmMedium mapping = true
  <-> Satisfies utmSource utmMedium mapping.
Proof.
  unfold satisfies, Satisfies. rewrite andb_true_iff, matchesPattern_Wildcard.
  destruct (m_utmMedium mapping) as [[|c s]|].
  - tauto.
  - rewrite matchesPattern_Wildcard. tauto.
  - tauto.
Qed.

Lemma mapLoop_find (utmSource utmMedium : string) (mappings : list SourceMapping) :
  mapLoop utmSource utmMedium mappings
  = option_map resultOf (find (satisfies utmSource utmMedium) mappings).
Proof.
  induction mappings as [|mapping rest IH]; [reflexivity|].
  simpl. unfold satisfies at 1.
  destruct (matchesPattern utmSource (m_utmSource mapping)); [|exact IH].
  destruct (m_utmMedium mapping) as [[|c s]|]; simpl; try reflexivity.
  destruct (matchesPattern utmMedium (String c s)); [reflexivity | exact IH].
Qed.

Lemma find_first (A : Type) (f : A -> bool) (l : list A) :
  match find f l with
  | Some x => exists before after,
      l = before ++ x :: after
      /\ Forall (fun y => f y = false) before /\ f x = true
  | None => Forall (fun y => f y = false) l
  end.
Proof.
  induction l as [|a l IH]; simpl; [constructor|].
  destruct (f a) eqn:Ea.
  - exists [], l. repeat split; [constructor | exact Ea].
  - destruct (find f l) as [x|].
    + destruct IH as (before & after & -> & Hb & Hx).
      exists (a :: before), after. repeat split; [constructor; assumption | exact Hx].
    + constructor; assumption.
Qed.

Lemma getAllSourceMappings_sorted (st : DataStore) :
  StronglySorted (fun a b => (m_priority b <= m_priority a)%Q)
                 (Store.getAllSourceMappings st).
Proof.
  unfold Store.getAllSourceMappings.
  eapply StronglySorted_weaken; [|apply sortBy_sorted].
  - intros a b H. apply Qle_bool_iff. exact H.
  - intros x y. apply Qle_bool_total.
  - intros x y z H1 H2. eapply Qle_bool_trans; eassumption.
Qed.

Lemma lowerOr_empty (s : option string) :
  lowerOr EmptyString s = Str.toLowerCase (match s with Some v => v | None => EmptyString end).
Proof. destruct s as [[|c s]|]; reflexivity. Qed.

(** C4.  [mapToSource] walks the active mappings in descending priority
    order and answers with the first one that the lower-cased input
    satisfies: its source pattern matches the source under the wildcard
    semantics and, when it specifies a medium, its medium pattern matches
    the medium.  The answer is the source, source detail and channel of that
    mapping, with the mapping itself as [matchedMapping]; no mapping before
    it is satisfied.  When no mapping is satisfied the answer is the default
    mapping. *)
Theorem mapToSource_first_match :
  forall (formatSourceName : string -> string) (st : DataStore) (params : UTMParams),
    let mappings := Store.getAllSourceMappings st in
    let utmSource :=
      Str.toLowerCase (match p_source params with Some v => v | None => EmptyString end) in
    let utmMedium :=
      Str.toLowerCase (match p_medium params with Some v => v | None => EmptyString end) in
    Permutation mappings (filter m_isActive (sourceMappings st))
    /\ StronglySorted (fun a b => (m_priority b <= m_priority a)%Q) mappings
    /\ ((exists before mapping after,
           mappings = before ++ mapping :: after
           /\ Forall (fun m => ~ Satisfies utmSource utmMedium m) before
           /\ Satisfies utmSource utmMedium mapping
           /\ mapToSource formatSourceName st params
              = mkResult (m_source mapping) (m_sourceDetail mapping)
                         (m_channel mapping) (Some mapping))
        \/ (Forall (fun m => ~ Satisfies utmSource utmMedium m) mappings
            /\ mapToSource formatSourceName st params
               = getDefaultMapping formatSourceName params)).
Proof.
  intros formatSourceName st params mappings utmSource utmMedium.
  split; [apply sortBy_perm|]. split; [apply getAllSourceMappings_sorted|].
  assert (Hnot : forall l,
             Forall (fun y => satisfies utmSource utmMedium y = false) l ->
             Forall (fun m => ~ Satisfies utmSource utmMedium m) l).
  { intros l Hl. eapply Forall_impl; [|exact Hl]. intros m Hm HS.
    apply satisfies_Satisfies in HS. simpl in Hm. congruence. }
  unfold mapToSource. rewrite !lowerOr_empty, mapLoop_find.
  fold mappings utmSource utmMedium.
  pose proof (find_first _ (satisfies utmSource utmMedium) mappings) as Hfind.
  destruct (find (satisfies utmSource utmMedium) mappings) as [mapping|].
  - left. destruct Hfind as (before & after & Hsplit & Hb & Hm).
    exists before, mapping, after.
    split; [exact Hsplit|]. split; [apply Hnot, Hb|].
    split; [apply satisfies_Satisfies, Hm | reflexivity].
  - right. split; [apply Hnot, Hfind | reflexivity].
Qed.

Example Wildcard_ex :
  Wildcard "g*gle" "google" /\ ~ Wildcard "g*gle" "googles".
Proof.
  split.
  - apply fullMatch_Wildcard. reflexivity.
  - intros H. apply fullMatch_Wildcard in H. discriminate H.
Qed.

(* ------------------------------------------------------------------ *)
(** ** Attribution: what recalculation does *)

Lemma first_touch_events (randomUUID : nat -> string) (now : Z)
  (contactId : string) (dealId : option string) (revenue : JS.jsnum)
  (halfLife : option JS.jsnum) (w : World) (first : UTMRecord)
  (rest : list UTMRecord) :
  Store.getUTMRecordsByContact contactId (store w) = first :: rest ->
  fst (createAttribution randomUUID now contactId dealId revenue
         (mkConfig first_touch halfLife) w)
  = [newEvent now (randomUUID (uuidCalls w)) contactId dealId revenue
              (mkConfig first_touch halfLife) first (JS.Fin 1)].
Proof.
  intros Etps.
  rewrite createAttribution_unfold by (rewrite Etps; discriminate).
  rewrite Etps. unfold calculateWeights. simpl model. cbv iota. simpl List.length.
  rewrite firstTouchWeights_S. simpl combine.
  rewrite emitEvents_cons_pos by (apply gt_Fin; lra).
  rewrite emitEvents_none by apply combine_zero_weights. reflexivity.
Qed.

(** The linear conversion of the sample world produces the two events of
    weight one half. *)
Lemma linear_conversion :
  createAttribution sampleUUID sampleNow "contact-1" None (JS.Fin 1000)
    (mkConfig linear None) sampleWorld
  = (linearEvents, convertedWorld).
Proof.
  rewrite createAttribution_unfold by (simpl; discriminate).
  assert (Etps : Store.getUTMRecordsByContact "contact-1" (store sampleWorld)
                 = [sampleRecord "utm-1" "Paid Search" 1704067200000;
                    sampleRecord "utm-2" "Paid Social" 1705276800000])
    by reflexivity.
  rewrite Etps. unfold calculateWeights. simpl model. cbv iota. simpl List.length.
  rewrite linearWeights_S.
  replace (1 / INR 2)%R with (1 / 2)%R by (simpl; lra).
  simpl repeat. simpl combine.
  rewrite emitEvents_cons_pos by (apply gt_Fin; lra). cbv zeta.
  rewrite emitEvents_cons_pos by (apply gt_Fin; lra). cbv zeta.
  reflexivity.
Qed.

(** C3 fails on the code.  After a linear conversion of a revenue of 1000
    over two touchpoints, the implied original revenue
    [sum(revenue * weight) / sum(weight)] is 1000, but
    [recalculateAttribution] divides the sum of the revenues by the sum of
    the weights and re-invokes [createAttribution] with 2000. *)
Theorem recalculateAttribution_revenue_divergence :
  let existing := Store.getAttributionEventsByContact "contact-1" (store convertedWorld) in
  existing = linearEvents
  /\ impliedRevenue existing = JS.Fin 1000
  /\ map e_revenue
       (fst (recalculateAttribution sampleUUID sampleNow "contact-1"
               (mkConfig first_touch None) convertedWorld))
     = [JS.Fin 2000].
Proof.
  cbv zeta.
  assert (Eex : Store.getAttributionEventsByContact "contact-1" (store convertedWorld)
                = linearEvents) by reflexivity.
  split; [exact Eex|]. split.
  - rewrite Eex. unfold impliedRevenue, linearEvents, linearEvent, JS.sum.
    cbn [map e_revenue e_attributionWeight]. js_small.
    rewrite div_small by lra. f_equal. lra.
  - unfold recalculateAttribution. rewrite Eex.
    change (List.length linearEvents =? 0)%nat with false. cbv iota zeta.
    assert (Etps : Store.getUTMRecordsByContact "contact-1" (store convertedWorld)
                   = [sampleRecord "utm-1" "Paid Search" 1704067200000;
                      sampleRecord "utm-2" "Paid Social" 1705276800000])
      by reflexivity.
    rewrite (first_touch_events _ _ _ _ _ _ _ _ _ Etps).
    simpl map. f_equal.
    unfold linearEvents, linearEvent.
    cbn [e_revenue e_attributionWeight]. js_small.
    rewrite div_small by lra. f_equal. lra.
Qed.

(* ------------------------------------------------------------------ *)
(** ** Metrics *)

Section MetricsFacts.

Variable parseDate : string -> option Z.



End MetricsFacts.

Example metrics_on_roiStore :
  calculateROI sampleDate januaryOptions roiStore = JS.Fin 200
  /\ calculateROAS sampleDate januaryOptions roiStore = JS.Fin 3
  /\ calculateCAC sampleDate januaryOptions roiStore = JS.Fin 1000.
Proof.
  assert (Ecost : getTotalCosts januaryOptions roiStore = JS.Fin (0 + 1000)).
  { change (getTotalCosts januaryOptions roiStore)
      with (JS.add (JS.Fin 0) (JS.Fin 1000)). js_small. reflexivity. }
  assert (Eev : getAttributionEvents sampleDate januaryOptions roiStore = [roiEvent])
    by reflexivity.
  assert (Erev : getTotalRevenue sampleDate januaryOptions roiStore
                 = JS.Fin (0 + 3000 * 1)).
  { unfold getTotalRevenue. rewrite Eev. unfold roiEvent. cbn [e_revenue e_attributionWeight].
    js_small. reflexivity. }
  assert (Econv : getConversions sampleDate januaryOptions roiStore = JS.Fin (0 + 1)).
  { unfold getConversions. rewrite Eev. unfold roiEvent. cbn [e_attributionWeight].
    js_small. reflexivity. }
  unfold calculateROI, calculateROAS, calculateCAC.
  rewrite Ecost, Erev, Econv. cbn [JS.eq].
  replace (JS.Reqb (0 + 1000) 0) with false by (symmetry; apply Reqb_false; lra).
  replace (JS.Reqb (0 + 1) 0) with false by (symmetry; apply Reqb_false; lra).
  js_small. rewrite !div_small by lra. js_small.
  repeat split; f_equal; lra.
Qed.








Lemma convertedStore_finite : finiteStore (store convertedWorld).
Proof. split; simpl; repeat constructor. Qed.

Lemma convertedStore_positive : positiveWeights (store convertedWorld).
Proof.
  unfold positiveWeights. simpl.
  repeat (constructor; [exists (1 / 2)%R; split; [reflexivity | lra]|]).
  constructor.
Qed.


(** The contact of the sample store after its linear conversion, with a
    cost of 1000 on one of its two channels: the contact holds the whole
    weight of the channel and is charged the whole cost. *)
Example getContactMetrics_on_converted_store :
  attributedCAC (getContactMetrics "contact-1"
                   (Store.addChannelCost paidSearchCost (store convertedWorld)))
  = JS.Fin 1000.
Proof.
  unfold getContactMetrics. cbn [attributedCAC].
  change (Store.getAttributionEventsByContact "contact-1"
            (Store.addChannelCost paidSearchCost (store convertedWorld)))
    with linearEvents.
  change (unique (map e_channel linearEvents))
    with ["Paid Search"; "Paid Social"]%string.
  cbn [fold_left]. unfold addChannelShare.
  change (Store.getAttributionEventsByChannel "Paid Search"
            (Store.addChannelCost paidSearchCost (store convertedWorld)))
    with [linearEvent 0 (sampleRecord "utm-1" "Paid Search" 1704067200000)].
  change (Store.getAttributionEventsByChannel "Paid Social"
            (Store.addChannelCost paidSearchCost (store convertedWorld)))
    with [linearEvent 1 (sampleRecord "utm-2" "Paid Social" 1705276800000)].
  change (Store.getChannelCostsByChannel "Paid Search"
            (Store.addChannelCost paidSearchCost (store convertedWorld)))
    with [paidSearchCost].
  change (Store.getChannelCostsByChannel "Paid Social"
            (Store.addChannelCost paidSearchCost (store convertedWorld)))
    with (@nil ChannelCost).
  change (filter (fun e => String.eqb (e_channel e) "Paid Search") linearEvents)
    with [linearEvent 0 (sampleRecord "utm-1" "Paid Search" 1704067200000)].
  change (filter (fun e => String.eqb (e_channel e) "Paid Social") linearEvents)
    with [linearEvent 1 (sampleRecord "utm-2" "Paid Social" 1705276800000)].
  cbn [List.length Nat.ltb Nat.leb]. unfold linearEvent, paidSearchCost.
  js_small. rewrite !div_small by lra. js_small.
  f_equal. lra.
Qed.



(* ------------------------------------------------------------------ *)
(** ** Further facts about attribution *)

(** With existing events, [recalculateAttribution] is a call of
    [createAttribution] with the first deal identifier found among them and
    the quotient of the summed revenues by the summed weights; the store is
    only added to. *)
Lemma recalculateAttribution_reinvokes (randomUUID : nat -> string) (now : Z)
  (contactId : string) (newConfig : AttributionConfig) (w : World) :
  let existing := Store.getAttributionEventsByContact contactId (store w) in
  let result := recalculateAttribution randomUUID now contactId newConfig w in
  existing <> [] ->
  result
  = createAttribution randomUUID now contactId
      (match find (fun e => Str.truthy (e_dealId e)) existing with
       | Some e => e_dealId e
       | None => None
       end)
      (JS.div (JS.sum (map e_revenue existing))
              (JS.sum (map e_attributionWeight existing)))
      newConfig w
  /\ store (snd result) = addAll (fst result) (store w).
Proof.
  intros existing result Hne. subst result.
  unfold recalculateAttribution. fold existing.
  destruct existing as [|e rest] eqn:E; [congruence|]. rewrite <- E.
  replace (List.length existing =? 0)%nat with false
    by (subst existing; rewrite E; reflexivity).
  cbv zeta. unfold JS.sum.
  rewrite (fold_add_map _ e_revenue), (fold_add_map _ e_attributionWeight).
  change (fold_left JS.add) with (fold_left (fun sum w0 => JS.add sum w0)).
  split; [reflexivity|].
  unfold createAttribution.
  destruct (List.length (Store.getUTMRecordsByContact contactId (store w)) =? 0)%nat.
  - reflexivity.
  - apply emitEvents_store.
Qed.

Lemma ln_half_neg : (ln (1 / 2) < 0)%R.
Proof. rewrite <- ln_1. apply ln_increasing; lra. Qed.

(** A touchpoint dated after the evaluation time has a raw time-decay
    weight above one, or [Infinity], for a positive half-life. *)
Lemma future_raw_weight_exceeds_one (now : Z) (a : R) (tp : UTMRecord) :
  (0 < a < 1000000)%R -> (now < u_timestamp tp)%Z ->
  JS.gt (rawWeight now (halfLifeMsOf (JS.Fin a)) tp) (JS.Fin 1) = true.
Proof.
  intros Ha Hfuture. rewrite halfLifeMsOf_Fin by lra.
  unfold rawWeight, JS.ofZ. cbn [JS.div].
  replace (JS.Reqb (a * 24 * 60 * 60 * 1000) 0) with false
    by (symmetry; apply Reqb_false; lra).
  assert (Hage : (IZR (now - u_timestamp tp) < 0)%R) by (apply IZR_lt; lia).
  assert (Hden : (0 < / (a * 24 * 60 * 60 * 1000))%R)
    by (apply Rinv_0_lt_compat; lra).
  assert (Hexp : (IZR (now - u_timestamp tp) / (a * 24 * 60 * 60 * 1000) < 0)%R).
  { unfold Rdiv.
    rewrite <- (Rmult_0_l (/ (a * 24 * 60 * 60 * 1000))).
    apply Rmult_lt_compat_r; assumption. }
  set (x := (IZR (now - u_timestamp tp) / (a * 24 * 60 * 60 * 1000))%R) in *.
  pose proof maxFinite_large as Hmax.
  destruct (ofReal_cases x) as [[_ Hx] | [[-> _] | [-> _]]]; [lra | reflexivity |].
  unfold JS.powHalf.
  replace (JS.Rleb 1075 x) with false by (symmetry; apply Rleb_false; lra).
  destruct (JS.Rleb x (-1024)); [reflexivity|].
  apply gt_Fin. unfold Rpower.
  pose proof ln_half_neg as Hln.
  set (l := ln (1 / 2)) in *.
  assert (H : (exp 0 < exp (x * l))%R).
  { apply exp_increasing.
    replace (x * l)%R with ((- x) * (- l))%R by ring.
    apply Rmult_lt_0_compat; lra. }
  rewrite exp_0 in H. exact H.
Qed.

Lemma mapSet_fresh (V : Type) (key : V -> string) (v : V) (m : list V) :
  hasKey key (key v) m = false -> mapSet key v m = m ++ [v].
Proof.
  induction m as [|x m IH]; simpl; intros H; [reflexivity|].
  apply orb_false_iff in H. destruct H as [Hx Hm].
  rewrite Hx, IH by exact Hm. reflexivity.
Qed.

Lemma hasKey_app (V : Type) (key : V -> string) (k : string) (m1 m2 : list V) :
  hasKey key k (m1 ++ m2) = hasKey key k m1 || hasKey key k m2.
Proof. unfold hasKey. apply existsb_app. Qed.

(** Events with fresh, pairwise distinct identifiers are appended to the
    stored events: nothing that was stored is replaced or removed. *)
Lemma addAll_fresh (events : list AttributionEvent) (st : DataStore) :
  NoDup (map e_id events) ->
  (forall e, In e events -> hasKey e_id (e_id e) (attributionEvents st) = false) ->
  attributionEvents (addAll events st) = attributionEvents st ++ events.
Proof.
  revert st. induction events as [|e events IH]; intros st Hnd Hfresh.
  - simpl. rewrite app_nil_r. reflexivity.
  - simpl in Hnd. inversion Hnd as [|x l Hnotin Hnd']; subst.
    change (addAll (e :: events) st)
      with (addAll events (Store.addAttributionEvent e st)).
    assert (Estep : attributionEvents (Store.addAttributionEvent e st)
                    = attributionEvents st ++ [e]).
    { simpl. apply mapSet_fresh, Hfresh. left; reflexivity. }
    rewrite IH.
    + rewrite Estep, <- app_assoc. reflexivity.
    + exact Hnd'.
    + intros e' He'. rewrite Estep, hasKey_app.
      rewrite (Hfresh e') by (right; exact He'). simpl.
      rewrite orb_false_r. apply String.eqb_neq. intros Heq.
      apply Hnotin. rewrite Heq. apply in_map, He'.
Qed.

(* ================================================================== *)
(** * Further properties of the code *)

(* ------------------------------------------------------------------ *)
(** ** The store as a keyed collection *)

Section MapFacts.

Variable V : Type.
Variable key : V -> string.

Lemma mapGet_mapSet_same (v : V) (m : list V) :
  mapGet key (key v) (mapSet key v m) = Some v.
Proof.
  unfold mapGet. induction m as [|x m IH]; simpl.
  - rewrite String.eqb_refl. reflexivity.
  - destruct (String.eqb (key x) (key v)) eqn:E; simpl.
    + rewrite String.eqb_refl. reflexivity.
    + rewrite E. exact IH.
Qed.

Lemma mapGet_mapSet_other (k : string) (v : V) (m : list V) :
  k <> key v -> mapGet key k (mapSet key v m) = mapGet key k m.
Proof.
  intros Hk. unfold mapGet. induction m as [|x m IH]; simpl.
  - replace (String.eqb (key v) k) with false; [reflexivity|].
    symmetry. apply String.eqb_neq. congruence.
  - destruct (String.eqb (key x) (key v)) eqn:E; simpl.
    + apply String.eqb_eq in E.
      replace (String.eqb (key v) k) with false
        by (symmetry; apply String.eqb_neq; congruence).
      replace (String.eqb (key x) k) with false
        by (symmetry; apply String.eqb_neq; congruence).
      reflexivity.
    + destruct (String.eqb (key x) k); [reflexivity | exact IH].
Qed.

Lemma hasKey_In (k : string) (m : list V) :
  hasKey key k m = true <-> In k (map key m).
Proof.
  unfold hasKey. rewrite existsb_exists, in_map_iff. split.
  - intros (x & Hx & E). apply String.eqb_eq in E. exists x. split; assumption.
  - intros (x & E & Hx). exists x. split; [exact Hx | apply String.eqb_eq, E].
Qed.

Lemma hasKey_mapGet (k : string) (m : list V) :
  hasKey key k m = match mapGet key k m with Some _ => true | None => false end.
Proof.
  unfold hasKey, mapGet. induction m as [|x m IH]; simpl; [reflexivity|].
  destruct (String.eqb (key x) k); [reflexivity | exact IH].
Qed.

Lemma mapGet_key (k : string) (m : list V) (v : V) :
  mapGet key k m = Some v -> key v = k /\ In v m.
Proof.
  unfold mapGet. intros H. apply find_some in H. destruct H as [Hin E].
  apply String.eqb_eq in E. split; assumption.
Qed.

Lemma map_key_mapSet_present (v : V) (m : list V) :
  hasKey key (key v) m = true -> map key (mapSet key v m) = map key m.
Proof.
  induction m as [|x m IH]; simpl; intros H; [discriminate H|].
  destruct (String.eqb (key x) (key v)) eqn:E; simpl.
  - apply String.eqb_eq in E. rewrite E. reflexivity.
  - rewrite IH by exact H. reflexivity.
Qed.

Lemma mapSet_distinct (v : V) (m : list V) :
  distinctKeys key m -> distinctKeys key (mapSet key v m).
Proof.
  unfold distinctKeys. intros Hnd.
  destruct (hasKey key (key v) m) eqn:E.
  - rewrite map_key_mapSet_present by exact E. exact Hnd.
  - rewrite mapSet_fresh by exact E. rewrite map_app. simpl.
    apply NoDup_app; [exact Hnd | repeat constructor; intros [] |].
    intros k Hk [<- | []].
    apply hasKey_In in Hk. congruence.
Qed.

Lemma mapDelete_absent (k : string) (m : list V) :
  hasKey key k m = false -> mapDelete key k m = m.
Proof.
  induction m as [|x m IH]; simpl; intros H; [reflexivity|].
  apply orb_false_iff in H. destruct H as [Hx Hm].
  rewrite Hx, IH by exact Hm. reflexivity.
Qed.

Lemma mapDelete_In (k : string) (m : list V) (x : V) :
  In x (mapDelete key k m) -> In x m.
Proof.
  induction m as [|y m IH]; simpl; [tauto|].
  destruct (String.eqb (key y) k); simpl; [tauto|].
  intros [E | H]; [left; exact E | right; apply IH, H].
Qed.

Lemma mapDelete_distinct (k : string) (m : list V) :
  distinctKeys key m -> distinctKeys key (mapDelete key k m).
Proof.
  unfold distinctKeys. induction m as [|x m IH]; simpl; intros Hnd; [constructor|].
  inversion Hnd as [|a l Hnotin Hnd']; subst.
  destruct (String.eqb (key x) k); [exact Hnd'|].
  simpl. constructor; [|apply IH, Hnd'].
  intros Hin. apply Hnotin. apply in_map_iff in Hin.
  destruct Hin as (y & E & Hy). apply in_map_iff. exists y.
  split; [exact E | eapply mapDelete_In, Hy].
Qed.

Lemma mapGet_mapDelete_same (k : string) (m : list V) :
  distinctKeys key m -> mapGet key k (mapDelete key k m) = None.
Proof.
  unfold distinctKeys, mapGet. induction m as [|x m IH]; simpl; intros Hnd;
    [reflexivity|].
  inversion Hnd as [|a l Hnotin Hnd']; subst.
  destruct (String.eqb (key x) k) eqn:E.
  - apply String.eqb_eq in E. subst k.
    destruct (find (fun y => String.eqb (key y) (key x)) m) as [y|] eqn:F;
      [|reflexivity].
    apply find_some in F. destruct F as [Hy Ey]. apply String.eqb_eq in Ey.
    exfalso. apply Hnotin. rewrite <- Ey. apply in_map, Hy.
  - simpl. rewrite E. apply IH, Hnd'.
Qed.

Lemma mapGet_mapDelete_other (k k' : string) (m : list V) :
  k' <> k -> mapGet key k' (mapDelete key k m) = mapGet key k' m.
Proof.
  intros Hk. unfold mapGet. induction m as [|x m IH]; simpl; [reflexivity|].
  destruct (String.eqb (key x) k) eqn:E.
  - apply String.eqb_eq in E.
    replace (String.eqb (key x) k') with false
      by (symmetry; apply String.eqb_neq; congruence).
    reflexivity.
  - simpl. destruct (String.eqb (key x) k'); [reflexivity | exact IH].
Qed.

Lemma mapDelete_mapSet_fresh (v : V) (m : list V) :
  hasKey key (key v) m = false -> mapDelete key (key v) (mapSet key v m) = m.
Proof.
  induction m as [|x m IH]; simpl; intros H.
  - rewrite String.eqb_refl. reflexivity.
  - apply orb_false_iff in H. destruct H as [Hx Hm].
    rewrite Hx. simpl. rewrite Hx, IH by exact Hm. reflexivity.
Qed.

End MapFacts.

Lemma withRules_same (st : DataStore) : withRules (normalizationRules st) st = st.
Proof. destruct st; reflexivity. Qed.

Lemma seedRuleStore_distinct : distinctKeys r_id (normalizationRules seedRuleStore).
Proof.
  unfold distinctKeys. simpl.
  repeat (constructor; [simpl; intros H; repeat (destruct H as [H | H]; [discriminate H|]); exact H|]).
  constructor.
Qed.

(** X1.  Looking a rule up after [addNormalizationRule]: the identifier of
    the added rule now yields that rule, whether it was new or replaced an
    older rule, and every other identifier yields what it yielded before. *)
Theorem getNormalizationRule_after_add :
  forall (rule : NormalizationRule) (st : DataStore) (id : string),
    getNormalizationRule id (Store.addNormalizationRule rule st)
    = if String.eqb id (r_id rule) then Some rule
      else getNormalizationRule id st.
Proof.
  intros rule st id. unfold getNormalizationRule. simpl.
  destruct (String.eqb id (r_id rule)) eqn:E.
  - apply String.eqb_eq in E. subst id. apply mapGet_mapSet_same.
  - apply mapGet_mapSet_other. apply String.eqb_neq, E.
Qed.

(** X2.  [deleteNormalizationRule] answers whether the identifier was
    stored; afterwards the identifier is gone, every other identifier
    yields what it yielded before, and a store that did not hold the
    identifier is left as it was. *)
Theorem deleteNormalizationRule_spec :
  forall (id : string) (st : DataStore),
    distinctKeys r_id (normalizationRules st) ->
    let deleted := fst (deleteNormalizationRule id st) in
    let st' := snd (deleteNormalizationRule id st) in
    deleted = (match getNormalizationRule id st with Some _ => true | None => false end)
    /\ (forall other,
          getNormalizationRule other st'
          = if String.eqb other id then None else getNormalizationRule other st)
    /\ (if deleted then True else st' = st)
    /\ distinctKeys r_id (normalizationRules st').
Proof.
  intros id st Hnd deleted st'. subst deleted st'.
  unfold deleteNormalizationRule, getNormalizationRule. simpl.
  split; [apply hasKey_mapGet|]. split; [|split].
  - intros other. destruct (String.eqb other id) eqn:E.
    + apply String.eqb_eq in E. subst other. apply mapGet_mapDelete_same, Hnd.
    + apply mapGet_mapDelete_other. apply String.eqb_neq, E.
  - destruct (hasKey r_id id (normalizationRules st)) eqn:E; [exact I|].
    rewrite mapDelete_absent by exact E. apply withRules_same.
  - apply mapDelete_distinct, Hnd.
Qed.

Lemma deleteNormalizationRule_spec_witness :
  distinctKeys r_id (normalizationRules seedRuleStore)
  /\ fst (deleteNormalizationRule "norm-3" seedRuleStore)
     = (match getNormalizationRule "norm-3" seedRuleStore with
        | Some _ => true | None => false end)
  /\ (forall other,
        getNormalizationRule other (snd (deleteNormalizationRule "norm-3" seedRuleStore))
        = if String.eqb other "norm-3" then None
          else getNormalizationRule other seedRuleStore)
  /\ (if fst (deleteNormalizationRule "norm-3" seedRuleStore) then True
      else snd (deleteNormalizationRule "norm-3" seedRuleStore) = seedRuleStore)
  /\ distinctKeys r_id
       (normalizationRules (snd (deleteNormalizationRule "norm-3" seedRuleStore))).
Proof.
  split; [exact seedRuleStore_distinct|].
  apply (deleteNormalizationRule_spec "norm-3" seedRuleStore seedRuleStore_distinct).
Defined.

(** X3.  Adding a rule under an identifier that is not stored and deleting
    it again gives back the store as it was. *)
Theorem add_then_delete_rule :
  forall (rule : NormalizationRule) (st : DataStore),
    getNormalizationRule (r_id rule) st = None ->
    deleteNormalizationRule (r_id rule) (Store.addNormalizationRule rule st)
    = (true, st).
Proof.
  intros rule st Hnone.
  assert (Hfresh : hasKey r_id (r_id rule) (normalizationRules st) = false).
  { rewrite hasKey_mapGet. unfold getNormalizationRule in Hnone.
    rewrite Hnone. reflexivity. }
  unfold deleteNormalizationRule. simpl. f_equal.
  - rewrite mapSet_fresh by exact Hfresh. rewrite hasKey_app. simpl.
    rewrite String.eqb_refl. apply orb_true_r.
  - unfold withRules. simpl.
    rewrite mapDelete_mapSet_fresh by exact Hfresh. destruct st; reflexivity.
Qed.

Lemma add_then_delete_rule_witness :
  getNormalizationRule "norm-9" seedRuleStore = None
  /\ deleteNormalizationRule "norm-9"
       (Store.addNormalizationRule
          (mkRule "norm-9" utm_term contains "promo" "promotion" 3 true) seedRuleStore)
     = (true, seedRuleStore).
Proof.
  split; [reflexivity|].
  apply (add_then_delete_rule
           (mkRule "norm-9" utm_term contains "promo" "promotion" 3 true)
           seedRuleStore).
  reflexivity.
Defined.

(** X4.  [updateNormalizationRule] on an identifier that is not stored
    answers nothing and leaves the store as it was.  On a stored identifier
    it answers the merged rule, which keeps the identifier, stores it in the
    place of the old one (the identifiers and their order are unchanged) and
    touches no other rule. *)
Theorem updateNormalizationRule_spec :
  forall (id : string) (updates : RuleUpdates) (st : DataStore),
    let result := updateNormalizationRule id updates st in
    match getNormalizationRule id st with
    | None => result = (None, st)
    | Some existing =>
        let updated := mergeRule existing updates in
        fst result = Some updated
        /\ r_id updated = id
        /\ map r_id (normalizationRules (snd result))
           = map r_id (normalizationRules st)
        /\ forall other,
             getNormalizationRule other (snd result)
             = if String.eqb other id then Some updated
               else getNormalizationRule other st
    end.
Proof.
  intros id updates st result. subst result.
  unfold updateNormalizationRule, getNormalizationRule.
  destruct (mapGet r_id id (normalizationRules st)) as [existing|] eqn:E;
    [|reflexivity].
  destruct (mapGet_key _ _ _ _ _ E) as [Hid Hin].
  cbv zeta. simpl fst. simpl snd.
  assert (Hkey : r_id (mergeRule existing updates) = id) by exact Hid.
  split; [reflexivity|]. split; [exact Hkey|]. split.
  - simpl. apply map_key_mapSet_present. rewrite Hkey, hasKey_mapGet, E. reflexivity.
  - intros other. simpl. destruct (String.eqb other id) eqn:Eo.
    + apply String.eqb_eq in Eo. subst other. rewrite <- Hkey at 1.
      apply mapGet_mapSet_same.
    + apply mapGet_mapSet_other. rewrite Hkey. apply String.eqb_neq, Eo.
Qed.

(* ------------------------------------------------------------------ *)
(** ** Ties keep the insertion order *)

Section StableSort.

Variable A : Type.
Variable before : A -> A -> bool.
Variable P : A -> bool.
Hypothesis P_tie : forall x y, P x = true -> P y = true -> before x y = true.

Lemma filter_insertSorted (x : A) (l : list A) :
  filter P (insertSorted before x l) = filter P (x :: l).
Proof.
  induction l as [|y l IH]; [reflexivity|].
  simpl insertSorted. destruct (before x y) eqn:E; [reflexivity|].
  simpl. simpl in IH. rewrite IH.
  destruct (P x) eqn:Px; [|reflexivity].
  destruct (P y) eqn:Py; [|reflexivity].
  rewrite (P_tie x y Px Py) in E. discriminate E.
Qed.

Lemma filter_sortBy (l : list A) : filter P (sortBy before l) = filter P l.
Proof.
  induction l as [|x l IH]; [reflexivity|].
  simpl sortBy. rewrite filter_insertSorted. simpl. rewrite IH. reflexivity.
Qed.

End StableSort.

Lemma Qeq_bool_tie (a b q : Q) :
  Qeq_bool a q = true -> Qeq_bool b q = true -> Qle_bool b a = true.
Proof.
  intros Ha Hb. apply Qeq_bool_iff in Ha, Hb. apply Qle_bool_iff.
  rewrite Ha, Hb. apply Qle_refl.
Qed.

(** X5.  The sorted views of the store are stable: the active rules of one
    priority, the active mappings of one priority and the touchpoints of a
    contact with one timestamp come out in the order in which they were
    stored. *)
Theorem sorted_views_keep_insertion_order :
  forall (st : DataStore),
    (forall q : Q,
        filter (fun r => Qeq_bool (r_priority r) q) (Store.getAllNormalizationRules st)
        = filter (fun r => Qeq_bool (r_priority r) q)
                 (filter r_isActive (normalizationRules st)))
    /\ (forall q : Q,
        filter (fun m => Qeq_bool (m_priority m) q) (Store.getAllSourceMappings st)
        = filter (fun m => Qeq_bool (m_priority m) q)
                 (filter m_isActive (sourceMappings st)))
    /\ (forall (contactId : string) (t : Z),
        filter (fun r => (u_timestamp r =? t)%Z)
               (Store.getUTMRecordsByContact contactId st)
        = filter (fun r => (u_timestamp r =? t)%Z)
                 (filter (fun r => optIs (u_contactId r) contactId) (utmRecords st))).
Proof.
  intros st. repeat split.
  - intros q. apply filter_sortBy. intros x y Hx Hy.
    exact (Qeq_bool_tie _ _ q Hx Hy).
  - intros q. apply filter_sortBy. intros x y Hx Hy.
    exact (Qeq_bool_tie _ _ q Hx Hy).
  - intros contactId t. apply filter_sortBy. intros x y Hx Hy.
    apply Z.eqb_eq in Hx, Hy. apply Z.leb_le. lia.
Qed.

(* ------------------------------------------------------------------ *)
(** ** Strings: lower case and cleaned values *)

Lemma lowerChar_idempotent (c : ascii) :
  Str.lowerChar (Str.lowerChar c) = Str.lowerChar c.
Proof. destruct c as [[] [] [] [] [] [] [] []]; reflexivity. Qed.

Lemma toLowerCase_idempotent (s : string) :
  Str.toLowerCase (Str.toLowerCase s) = Str.toLowerCase s.
Proof.
  induction s as [|c s IH]; [reflexivity|].
  simpl. rewrite lowerChar_idempotent, IH. reflexivity.
Qed.

Lemma slugChar_facts (c : ascii) :
  Str.isSlugChar c = true ->
  Str.lowerChar c = c /\ Str.isSpace c = false
  /\ Ascii.eqb c "%" = false /\ Ascii.eqb c "+" = false.
Proof.
  destruct c as [[] [] [] [] [] [] [] []]; intros H;
    try discriminate H; repeat split.
Qed.

Lemma all_append (p : ascii -> bool) (s t : string) :
  Str.all p (s ++ t) = Str.all p s && Str.all p t.
Proof.
  induction s as [|c s IH]; [reflexivity|].
  simpl. rewrite IH. apply andb_assoc.
Qed.

Lemma all_rev (p : ascii -> bool) (s : string) : Str.all p (Str.rev s) = Str.all p s.
Proof.
  induction s as [|c s IH]; [reflexivity|].
  simpl. rewrite all_append, IH. simpl. rewrite andb_true_r. apply andb_comm.
Qed.

Lemma append_empty_r (s : string) : (s ++ EmptyString)%string = s.
Proof. induction s as [|c s IH]; [reflexivity | simpl; rewrite IH; reflexivity]. Qed.

Lemma append_assoc (s t u : string) : ((s ++ t) ++ u)%string = (s ++ (t ++ u))%string.
Proof. induction s as [|c s IH]; [reflexivity | simpl; rewrite IH; reflexivity]. Qed.

Lemma rev_append (s t : string) : Str.rev (s ++ t) = (Str.rev t ++ Str.rev s)%string.
Proof.
  induction s as [|c s IH]; simpl.
  - rewrite append_empty_r. reflexivity.
  - rewrite IH, append_assoc. reflexivity.
Qed.

Lemma rev_involutive (s : string) : Str.rev (Str.rev s) = s.
Proof.
  induction s as [|c s IH]; [reflexivity|].
  simpl. rewrite rev_append, IH. reflexivity.
Qed.

Lemma trimStart_slug (s : string) :
  Str.all Str.isSlugChar s = true -> Str.trimStart s = s.
Proof.
  destruct s as [|c s]; [reflexivity|]. simpl. intros H.
  apply andb_true_iff in H. destruct H as [Hc _].
  destruct (slugChar_facts c Hc) as (_ & -> & _). reflexivity.
Qed.

Lemma toLowerCase_slug (s : string) :
  Str.all Str.isSlugChar s = true -> Str.toLowerCase s = s.
Proof.
  induction s as [|c s IH]; [reflexivity|]. simpl. intros Hs.
  apply andb_true_iff in Hs. destruct Hs as [Hc Hs].
  destruct (slugChar_facts c Hc) as (-> & _). rewrite IH by exact Hs. reflexivity.
Qed.

Lemma trim_slug (s : string) : Str.all Str.isSlugChar s = true -> Str.trim s = s.
Proof.
  intros Hs. unfold Str.trim, Str.trimEnd. rewrite (trimStart_slug s Hs).
  rewrite trimStart_slug by (rewrite all_rev; exact Hs). apply rev_involutive.
Qed.

Lemma replaceSpaceRuns_slug (s : string) (inRun : bool) :
  Str.all Str.isSlugChar s = true -> Str.replaceSpaceRuns inRun s = s.
Proof.
  revert inRun. induction s as [|c s IH]; intros inRun Hs; [reflexivity|].
  simpl in Hs |- *. apply andb_true_iff in Hs. destruct Hs as [Hc Hs].
  destruct (slugChar_facts c Hc) as (_ & -> & _). rewrite IH by exact Hs.
  reflexivity.
Qed.

Lemma removeNonSlug_slug (s : string) :
  Str.all Str.isSlugChar s = true -> Str.removeNonSlug s = s.
Proof.
  induction s as [|c s IH]; [reflexivity|]. simpl. intros Hs.
  apply andb_true_iff in Hs. destruct Hs as [Hc Hs].
  rewrite Hc, IH by exact Hs. reflexivity.
Qed.

(** A string over [[a-z0-9_-]] is left as it is by every step of the
    cleanup. *)
Lemma cleanValue_slug (s : string) :
  Str.all Str.isSlugChar s = true -> cleanValue s = s.
Proof.
  intros Hs. unfold cleanValue.
  rewrite (toLowerCase_slug s Hs), (trim_slug s Hs),
    (replaceSpaceRuns_slug s false Hs).
  apply removeNonSlug_slug, Hs.
Qed.

(** X6.  The cleanup of a value is idempotent: a cleaned value is over
    [[a-z0-9_-]] and cleaning it again changes nothing. *)
Theorem cleanValue_idempotent :
  forall s : string, cleanValue (cleanValue s) = cleanValue s.
Proof.
  intros s. apply cleanValue_slug. unfold cleanValue. apply removeNonSlug_all.
Qed.

(* ------------------------------------------------------------------ *)
(** ** Normalization: second pass and validation *)

Lemma normalize_without_rules (regexTest : string -> string -> bool)
  (st : DataStore) (params : UTMParams) :
  Store.getAllNormalizationRules st = [] ->
  normalize regexTest st params = cleanupParams params.
Proof. intros H. unfold normalize. rewrite H. reflexivity. Qed.

(** X7.  In a store without active rules, normalizing a second time keeps
    every field that the first pass produced, except that a field that the
    first pass left as the empty string is dropped.  So [normalize] is
    idempotent exactly on the outputs that hold no empty field. *)
Theorem normalize_twice_without_rules :
  forall (regexTest : string -> string -> bool) (st : DataStore)
         (params : UTMParams) (f : UTMField),
    Store.getAllNormalizationRules st = [] ->
    getField f (normalize regexTest st (normalize regexTest st params))
    = match getField f (normalize regexTest st params) with
      | Some EmptyString => None
      | other => other
      end.
Proof.
  intros regexTest st params f Hnone.
  rewrite !normalize_without_rules by exact Hnone.
  rewrite !cleanupParams_getField.
  destruct (getField f params) as [[|c s]|]; try reflexivity.
  change (cleanupField (Some (String c s))) with (Some (cleanValue (String c s))).
  destruct (cleanValue (String c s)) as [|d t] eqn:E; [reflexivity|].
  change (cleanupField (Some (String d t))) with (Some (cleanValue (String d t))).
  rewrite <- E.
  rewrite (cleanValue_slug (cleanValue (String c s)))
    by (unfold cleanValue; apply removeNonSlug_all).
  reflexivity.
Qed.

Lemma normalize_twice_without_rules_witness :
  Store.getAllNormalizationRules emptyStore = []
  /\ getField utm_source
       (normalize noRegex emptyStore
          (normalize noRegex emptyStore
             (mkParams (Some "!@#"%string) None None None None)))
     = match getField utm_source
               (normalize noRegex emptyStore
                  (mkParams (Some "!@#"%string) None None None None)) with
       | Some EmptyString => None
       | other => other
       end.
Proof.
  split; [reflexivity|].
  apply (normalize_twice_without_rules noRegex emptyStore
           (mkParams (Some "!@#"%string) None None None None) utm_source).
  reflexivity.
Defined.

Lemma hasChar_slug (c : ascii) (s : string) :
  Str.isSlugChar c = false -> Str.all Str.isSlugChar s = true ->
  Str.hasChar c s = false.
Proof.
  intros Hc. induction s as [|d s IH]; [reflexivity|]. simpl. intros Hs.
  apply andb_true_iff in Hs. destruct Hs as [Hd Hs].
  rewrite IH by exact Hs. rewrite orb_false_r.
  apply Ascii.eqb_neq. intros ->. congruence.
Qed.

Lemma looksEncoded_slug (s : string) :
  Str.all Str.isSlugChar s = true -> looksEncoded s = false.
Proof.
  intros Hs. destruct s as [|c s]; [reflexivity|]. unfold looksEncoded.
  rewrite !hasChar_slug by (reflexivity || exact Hs). reflexivity.
Qed.

Lemma entries_In (params : UTMParams) (f : UTMField) (v : string) :
  In (f, v) (entries params) <-> getField f params = Some v.
Proof.
  unfold entries. rewrite in_flat_map. split.
  - intros (g & _ & Hin). destruct (getField g params) as [u|] eqn:E; [|destruct Hin].
    destruct Hin as [[= <- <-] | []]. exact E.
  - intros E. exists f. split.
    + destruct f; simpl; tauto.
    + rewrite E. left; reflexivity.
Qed.

(** X8.  [validateParams] reports the parameters valid exactly when the
    source is present with at least two code units and no present field
    contains [%] or [+]; the issue list is empty exactly then. *)
Theorem validateParams_valid_iff :
  forall params : UTMParams,
    isValid (validateParams params)
    = (match p_source params with
       | Some source => (2 <=? String.length source)%nat
       | None => false
       end
       && forallb (fun f => match getField f params with
                            | Some v => negb (looksEncoded v)
                            | None => true
                            end) allFields)
    /\ (isValid (validateParams params) = true <-> issues (validateParams params) = []).
Proof.
  intros params. split.
  - unfold validateParams, entries. cbn [isValid].
    destruct params as [src med cam ter con]. cbn [p_source].
    unfold allFields. cbn [flat_map forallb getField p_source p_medium p_campaign
                           p_term p_content app snd fst].
    destruct src as [[|c [|d s]]|], med as [med|], cam as [cam|], ter as [ter|],
             con as [con|];
      cbn [Str.truthy negb String.length Nat.ltb Nat.leb app flat_map snd fst];
      try change (looksEncoded EmptyString) with false;
      repeat match goal with
             | |- context [looksEncoded ?v] => destruct (looksEncoded v)
             end;
      reflexivity.
  - unfold validateParams. cbn [isValid issues].
    destruct (_ ++ _ ++ _) as [|i l]; simpl; split; intros H;
      try reflexivity; discriminate H.
Qed.

Lemma normalize_field_slug (regexTest : string -> string -> bool) (st : DataStore)
  (params : UTMParams) (f : UTMField) (v : string) :
  getField f (normalize regexTest st params) = Some v ->
  Str.all Str.isSlugChar v = true.
Proof.
  unfold normalize. rewrite cleanupParams_getField.
  destruct (getField f (applyRules regexTest _ params)) as [[|c s]|];
    try discriminate.
  intros [= <-]. unfold cleanValue. apply removeNonSlug_all.
Qed.

Lemma flat_map_nil (A B : Type) (g : A -> list B) (l : list A) :
  (forall x, In x l -> g x = []) -> flat_map g l = [].
Proof.
  induction l as [|x l IH]; intros H; [reflexivity|].
  simpl. rewrite (H x) by (left; reflexivity).
  apply IH. intros y Hy. apply H. right; exact Hy.
Qed.

(** X9.  Parameters that went through [normalize] never raise the issue
    about URL encoding: the only issues that [validateParams] can report on
    them are the missing source and the short source, and they are valid
    exactly when the normalized source has at least two code units. *)
Theorem validateParams_after_normalize :
  forall (regexTest : string -> string -> bool) (st : DataStore) (params : UTMParams),
    let normalized := normalize regexTest st params in
    Forall (fun issue => issue = missingSourceIssue \/ issue = shortSourceIssue)
           (issues (validateParams normalized))
    /\ isValid (validateParams normalized)
       = match p_source normalized with
         | Some source => (2 <=? String.length source)%nat
         | None => false
         end.
Proof.
  intros regexTest st params normalized.
  assert (Hnone : flat_map (fun entry => if looksEncoded (snd entry)
                                         then [encodingIssue (fst entry)] else [])
                           (entries normalized) = []).
  { apply flat_map_nil. intros [f v] Hin. apply entries_In in Hin. simpl.
    rewrite looksEncoded_slug; [reflexivity|].
    exact (normalize_field_slug regexTest st params f v Hin). }
  unfold validateParams. cbn [isValid issues]. rewrite Hnone, !app_nil_r.
  destruct (p_source normalized) as [[|c [|d s]]|]; simpl; split;
    try reflexivity;
    repeat (constructor; [(left; reflexivity) || (right; reflexivity)|]);
    constructor.
Qed.

(* ------------------------------------------------------------------ *)
(** ** Source mapping: patterns and case *)

Lemma lowerChar_star (c : ascii) :
  Ascii.eqb (Str.lowerChar c) "*" = Ascii.eqb c "*".
Proof. destruct c as [[] [] [] [] [] [] [] []]; reflexivity. Qed.

Lemma hasChar_star_lower (s : string) :
  Str.hasChar "*" (Str.toLowerCase s) = Str.hasChar "*" s.
Proof.
  induction s as [|c s IH]; [reflexivity|].
  simpl. rewrite lowerChar_star, IH. reflexivity.
Qed.

Lemma toLowerCase_append (s t : string) :
  Str.toLowerCase (s ++ t) = (Str.toLowerCase s ++ Str.toLowerCase t)%string.
Proof.
  induction s as [|c s IH]; [reflexivity|]. simpl. rewrite IH. reflexivity.
Qed.

Lemma hasChar_append (c : ascii) (s t : string) :
  Str.hasChar c (s ++ t) = Str.hasChar c s || Str.hasChar c t.
Proof.
  induction s as [|d s IH]; [reflexivity|].
  simpl. rewrite IH. apply orb_assoc.
Qed.

Lemma fullMatch_any (v : string) :
  Regex.fullMatch [Regex.AnyStar] v = singleLine v.
Proof.
  induction v as [|d v IH]; [reflexivity|].
  rewrite fullMatch_star, IH. reflexivity.
Qed.

Lemma fullMatch_prefix_star (p v : string) :
  Str.hasChar "*" p = false ->
  Regex.fullMatch (map itemOf (list_ascii_of_string (p ++ "*"))) v = true
  <-> exists rest, v = (p ++ rest)%string /\ singleLine rest = true.
Proof.
  revert v. induction p as [|c p IH]; intros v Hp.
  - change (map itemOf (list_ascii_of_string (EmptyString ++ "*")))
      with [Regex.AnyStar].
    rewrite fullMatch_any. split.
    + intros H. exists v. split; [reflexivity | exact H].
    + intros (rest & -> & H). exact H.
  - simpl in Hp. apply orb_false_iff in Hp. destruct Hp as [Hc Hp].
    simpl list_ascii_of_string. simpl map. unfold itemOf at 1. rewrite Hc.
    destruct v as [|d v]; simpl.
    + split; [discriminate | intros (rest & E & _); discriminate E].
    + rewrite andb_true_iff, Ascii.eqb_eq, (IH v Hp). split.
      * intros [-> (rest & -> & H)]. exists rest. split; [reflexivity | exact H].
      * intros (rest & [= -> ->] & H). split; [reflexivity|].
        exists rest. split; [reflexivity | exact H].
Qed.

(** X10.  For a pattern [p] without [*]: [p] itself matches exactly the
    value equal to [p] in lower case, and [p*] matches exactly the values
    that start with [p] in lower case and go on without a line terminator.
    So [*] alone matches every single-line value and no value that holds a
    line feed or a carriage return. *)
Theorem matchesPattern_plain_and_prefix :
  forall (value pattern : string),
    Str.hasChar "*" pattern = false ->
    matchesPattern value pattern = String.eqb value (Str.toLowerCase pattern)
    /\ (matchesPattern value (pattern ++ "*") = true
        <-> exists rest,
              value = (Str.toLowerCase pattern ++ rest)%string
              /\ singleLine rest = true).
Proof.
  intros value pattern Hp. split.
  - unfold matchesPattern. rewrite hasChar_star_lower, Hp. reflexivity.
  - unfold matchesPattern.
    rewrite hasChar_star_lower, hasChar_append. simpl Str.hasChar at 2.
    rewrite orb_true_r, parse_compiled, toLowerCase_append.
    change (Str.toLowerCase "*") with "*"%string.
    apply fullMatch_prefix_star. rewrite hasChar_star_lower. exact Hp.
Qed.

Lemma matchesPattern_plain_and_prefix_witness :
  Str.hasChar "*" "Google" = false
  /\ matchesPattern "google.com" "Google" = String.eqb "google.com" (Str.toLowerCase "Google")
  /\ (matchesPattern "google.com" ("Google" ++ "*") = true
      <-> exists rest,
            "google.com"%string = (Str.toLowerCase "Google" ++ rest)%string
            /\ singleLine rest = true).
Proof.
  split; [reflexivity|].
  apply (matchesPattern_plain_and_prefix "google.com" "Google"). reflexivity.
Defined.

Lemma lowerOr_lower (dflt : string) (s : option string) :
  lowerOr dflt (option_map Str.toLowerCase s) = lowerOr dflt s.
Proof.
  destruct s as [[|c s]|]; try reflexivity.
  simpl. rewrite lowerChar_idempotent, toLowerCase_idempotent. reflexivity.
Qed.

Lemma truthy_lower (s : option string) :
  Str.truthy (option_map Str.toLowerCase s) = Str.truthy s.
Proof. destruct s as [[|c s]|]; reflexivity. Qed.

(** X11.  [mapToSource] does not look at the case of the source and of the
    medium of its input: the input and the input with both in lower case
    get the same answer, from the mappings or from the default. *)
Theorem mapToSource_ignores_case :
  forall (formatSourceName : string -> string) (st : DataStore) (params : UTMParams),
    mapToSource formatSourceName st (lowerSourceMedium params)
    = mapToSource formatSourceName st params.
Proof.
  intros formatSourceName st params.
  unfold mapToSource, getDefaultMapping, lowerSourceMedium.
  cbn [p_source p_medium]. rewrite !lowerOr_lower, !truthy_lower. reflexivity.
Qed.

(** X12.  The mapping that [mapToSource] reports as matched is a stored,
    active mapping and the answer is read off it; when it reports none, the
    answer is the default mapping.  An inactive mapping is never the
    answer. *)
Theorem mapToSource_matched_is_active :
  forall (formatSourceName : string -> string) (st : DataStore) (params : UTMParams),
    let result := mapToSource formatSourceName st params in
    match res_matchedMapping result with
    | Some mapping =>
        In mapping (sourceMappings st)
        /\ m_isActive mapping = true
        /\ result = resultOf mapping
    | None => result = getDefaultMapping formatSourceName params
    end.
Proof.
  intros formatSourceName st params result. subst result.
  unfold mapToSource. rewrite mapLoop_find.
  destruct (find _ (Store.getAllSourceMappings st)) as [mapping|] eqn:E; simpl.
  - apply find_some in E. destruct E as [Hin _].
    unfold Store.getAllSourceMappings in Hin.
    apply sortBy_In, filter_In in Hin. destruct Hin as [Hin Hact].
    repeat split; assumption.
  - reflexivity.
Qed.

Lemma uniqueFrom_In (x : string) (seen l : list string) :
  In x (uniqueFrom seen l) <-> In x l /\ ~ In x seen.
Proof.
  revert seen. induction l as [|y l IH]; intros seen; simpl; [tauto|].
  destruct (existsb (String.eqb y) seen) eqn:E.
  - rewrite IH. apply existsb_exists in E. destruct E as (z & Hz & Ez).
    apply String.eqb_eq in Ez. subst z. split.
    + intros [H1 H2]. split; [right; exact H1 | exact H2].
    + intros [[-> | H1] H2]; [contradiction | split; assumption].
  - assert (Hy : ~ In y seen).
    { intros Hin. assert (existsb (String.eqb y) seen = true).
      { apply existsb_exists. exists y. split; [exact Hin | apply String.eqb_refl]. }
      congruence. }
    simpl. rewrite IH. simpl. split.
    + intros [-> | [H1 H2]]; [split; [left; reflexivity | exact Hy]|].
      split; [right; exact H1 | tauto].
    + intros [[-> | H1] H2]; [left; reflexivity|].
      destruct (string_dec y x) as [-> | Hne]; [left; reflexivity|].
      right. split; [exact H1|]. intros [Heq | Hin]; [congruence | contradiction].
Qed.

Lemma unique_In (x : string) (l : list string) : In x (unique l) <-> In x l.
Proof. unfold unique. rewrite uniqueFrom_In. simpl. tauto. Qed.

Lemma uniqueFrom_NoDup (seen l : list string) : NoDup (uniqueFrom seen l).
Proof.
  revert seen. induction l as [|y l IH]; intros seen; simpl; [constructor|].
  destruct (existsb (String.eqb y) seen); [apply IH|].
  constructor; [|apply IH].
  rewrite uniqueFrom_In. simpl. tauto.
Qed.

Lemma getDefaultMapping_channel (formatSourceName : string -> string)
  (params : UTMParams) :
  In (res_channel (getDefaultMapping formatSourceName params)) defaultChannels
  \/ res_channel (getDefaultMapping formatSourceName params) = "Social"%string.
Proof.
  unfold getDefaultMapping. cbn [res_channel].
  repeat match goal with
         | |- context [if ?b then _ else _] => destruct b
         end;
    (left; simpl; tauto) || (right; reflexivity).
Qed.

(** X13.  Every channel that [mapToSource] answers is on the list of
    [getAvailableChannels], or it is the default channel [Social], which that
    list leaves out.  The list holds no channel twice. *)
Theorem mapToSource_channel_on_offer :
  forall (formatSourceName : string -> string) (st : DataStore) (params : UTMParams),
    (In (res_channel (mapToSource formatSourceName st params)) (getAvailableChannels st)
     \/ res_channel (mapToSource formatSourceName st params) = "Social"%string)
    /\ NoDup (getAvailableChannels st)
    /\ ~ In "Social"%string defaultChannels.
Proof.
  intros formatSourceName st params. split; [|split].
  - unfold getAvailableChannels. unfold mapToSource. rewrite mapLoop_find.
    destruct (find _ (Store.getAllSourceMappings st)) as [mapping|] eqn:E; simpl.
    + left. apply find_some in E. destruct E as [Hin _].
      apply sortBy_In, unique_In, in_or_app. left. apply in_map, Hin.
    + destruct (getDefaultMapping_channel formatSourceName params) as [H | H].
      * left. apply sortBy_In, unique_In, in_or_app. right. exact H.
      * right. exact H.
  - unfold getAvailableChannels.
    apply (Permutation_NoDup (Permutation_sym (sortBy_perm _ Str.leb _))).
    apply uniqueFrom_NoDup.
  - simpl. intros H. repeat (destruct H as [H | H]; [discriminate H|]). exact H.
Qed.

Example social_is_not_on_offer :
  res_channel (mapToSource plainName seedMappingStore
                 (mkParams (Some "facebook"%string) None None None None))
  = "Social"%string
  /\ ~ In "Social"%string (getAvailableChannels seedMappingStore).
Proof.
  split; [reflexivity|].
  intros H. apply sortBy_In, unique_In in H. simpl in H.
  repeat (destruct H as [H | H]; [discriminate H|]). exact H.
Qed.

(* ------------------------------------------------------------------ *)
(** ** Attribution: the other models and the emitted events *)

Lemma emitEvents_skip_prefix (randomUUID : nat -> string) (now : Z)
  (contactId : string) (dealId : option string) (revenue : JS.jsnum)
  (config : AttributionConfig) (pre rest : list (UTMRecord * JS.jsnum)) (w : World) :
  Forall (fun p => positive p = false) pre ->
  emitEvents randomUUID now contactId dealId revenue config (pre ++ rest) w
  = emitEvents randomUUID now contactId dealId revenue config rest w.
Proof.
  induction 1 as [|[tp wt] pre Hp _ IH]; [reflexivity|].
  simpl app. rewrite emitEvents_cons_skip by exact Hp. exact IH.
Qed.

Lemma combine_app_same (A B : Type) (l1 l2 : list A) (m1 m2 : list B) :
  List.length l1 = List.length m1 ->
  combine (l1 ++ l2) (m1 ++ m2) = combine l1 m1 ++ combine l2 m2.
Proof.
  revert m1. induction l1 as [|x l1 IH]; intros [|y m1] H; try discriminate H.
  - reflexivity.
  - simpl. rewrite IH by (simpl in H; lia). reflexivity.
Qed.

Lemma StronglySorted_last (A : Type) (R : A -> A -> Prop) (init : list A) (last : A) :
  StronglySorted R (init ++ [last]) -> Forall (fun x => R x last) init.
Proof.
  induction init as [|x init IH]; intros H; [constructor|].
  simpl in H. inversion H as [|a l Hs Hall]; subst. constructor.
  - rewrite Forall_forall in Hall. apply Hall, in_or_app. right. left. reflexivity.
  - apply IH, Hs.
Qed.

(** X14.  With at least one stored touchpoint, the last-touch model yields
    exactly one event; its weight is one and it points at a touchpoint of
    the entity whose timestamp is the latest of all. *)
Theorem last_touch_credits_latest :
  forall (randomUUID : nat -> string) (now : Z) (contactId : string)
         (dealId : option string) (revenue : JS.jsnum)
         (halfLife : option JS.jsnum) (w : World),
    (1 <= List.length (Store.getUTMRecordsByContact contactId (store w)))%nat ->
    exists last event,
      fst (createAttribution randomUUID now contactId dealId revenue
             (mkConfig last_touch halfLife) w) = [event]
      /\ e_attributionWeight event = JS.Fin 1
      /\ e_utmRecordId event = u_id last
      /\ In last (utmRecords (store w))
      /\ u_contactId last = Some contactId
      /\ (forall tp, In tp (utmRecords (store w)) ->
                     u_contactId tp = Some contactId ->
                     (u_timestamp tp <= u_timestamp last)%Z).
Proof.
  intros randomUUID now contactId dealId revenue halfLife w Hn.
  pose proof (getUTMRecordsByContact_sorted contactId (store w)) as Hsorted.
  pose proof (getUTMRecordsByContact_In contactId (store w)) as Hin.
  assert (Hne : Store.getUTMRecordsByContact contactId (store w) <> []).
  { intros E. rewrite E in Hn. simpl in Hn. lia. }
  rewrite createAttribution_unfold by exact Hne.
  destruct (exists_last Hne) as (init & last & Etps).
  rewrite Etps in *. clear Hne Hn.
  exists last.
  exists (newEvent now (randomUUID (uuidCalls w)) contactId dealId revenue
                   (mkConfig last_touch halfLife) last (JS.Fin 1)).
  split; [|split; [reflexivity|split; [reflexivity|]]].
  - unfold calculateWeights. simpl model. cbv iota.
    rewrite length_app. simpl List.length.
    replace (List.length init + 1)%nat with (S (List.length init)) by lia.
    rewrite lastTouchWeights_S.
    rewrite combine_app_same by (rewrite repeat_length; reflexivity).
    rewrite emitEvents_skip_prefix by apply combine_zero_weights.
    simpl combine. rewrite emitEvents_cons_pos by (apply gt_Fin; lra).
    reflexivity.
  - assert (Hlast : In last (init ++ [last]))
      by (apply in_or_app; right; left; reflexivity).
    split; [apply (Hin last), Hlast|]. split; [apply (Hin last), Hlast|].
    intros tp Htp Hc.
    assert (Hmem : In tp (init ++ [last])) by (apply Hin; split; assumption).
    apply in_app_or in Hmem. destruct Hmem as [Hmem | [<- | []]]; [|lia].
    pose proof (StronglySorted_last _ _ _ _ Hsorted) as Hall.
    rewrite Forall_forall in Hall. apply Hall, Hmem.
Qed.

Lemma last_touch_credits_latest_witness :
  (1 <= List.length (Store.getUTMRecordsByContact "contact-1" (store sampleWorld)))%nat
  /\ exists last event,
      fst (createAttribution sampleUUID sampleNow "contact-1" None (JS.Fin 1000)
             (mkConfig last_touch None) sampleWorld) = [event]
      /\ e_attributionWeight event = JS.Fin 1
      /\ e_utmRecordId event = u_id last
      /\ In last (utmRecords (store sampleWorld))
      /\ u_contactId last = Some "contact-1"%string
      /\ (forall tp, In tp (utmRecords (store sampleWorld)) ->
                     u_contactId tp = Some "contact-1"%string ->
                     (u_timestamp tp <= u_timestamp last)%Z).
Proof.
  split.
  - simpl. lia.
  - apply (last_touch_credits_latest sampleUUID sampleNow "contact-1" None
             (JS.Fin 1000) None sampleWorld).
    simpl. lia.
Defined.

Lemma filter_positive_all (tps : list UTMRecord) (r : R) (n : nat) :
  (0 < r)%R ->
  filter positive (combine tps (repeat (JS.Fin r) n))
  = combine tps (repeat (JS.Fin r) n).
Proof.
  intros Hr. revert n. induction tps as [|tp tps IH]; intros [|n]; try reflexivity.
  simpl. unfold positive at 1. simpl snd.
  replace (JS.gt (JS.Fin r) (JS.Fin 0)) with true
    by (symmetry; apply gt_Fin; exact Hr).
  rewrite IH. reflexivity.
Qed.

Lemma map_combine_repeat (A B C : Type) (f : A * B -> C) (l : list A) (b : B) :
  map f (combine l (repeat b (List.length l))) = map (fun a => f (a, b)) l.
Proof.
  induction l as [|a l IH]; [reflexivity|]. simpl. rewrite IH. reflexivity.
Qed.

(** X15.  With n >= 1 stored touchpoints, the linear model yields one event
    per touchpoint, in ascending timestamp order, each with weight 1/n. *)
Theorem linear_credits_every_touchpoint :
  forall (randomUUID : nat -> string) (now : Z) (contactId : string)
         (dealId : option string) (revenue : JS.jsnum)
         (halfLife : option JS.jsnum) (w : World),
    let tps := Store.getUTMRecordsByContact contactId (store w) in
    (1 <= List.length tps)%nat ->
    map (fun e => (e_utmRecordId e, e_attributionWeight e))
        (fst (createAttribution randomUUID now contactId dealId revenue
                (mkConfig linear halfLife) w))
    = map (fun tp => (u_id tp, JS.Fin (1 / INR (List.length tps)))) tps.
Proof.
  intros randomUUID now contactId dealId revenue halfLife w tps Hn.
  assert (Hne : tps <> []).
  { intros E. rewrite E in Hn. simpl in Hn. lia. }
  subst tps. rewrite createAttribution_unfold by exact Hne.
  rewrite emitEvents_pairs. unfold calculateWeights. simpl model. cbv iota.
  destruct (List.length (Store.getUTMRecordsByContact contactId (store w)))
    as [|n] eqn:El; [lia|].
  rewrite linearWeights_S.
  assert (Hpos : (0 < 1 / INR (S n))%R).
  { apply Rdiv_lt_0_compat; [lra | apply lt_0_INR; lia]. }
  rewrite filter_positive_all by exact Hpos.
  rewrite <- El. apply map_combine_repeat.
Qed.

Lemma linear_credits_every_touchpoint_witness :
  (1 <= List.length (Store.getUTMRecordsByContact "contact-1" (store sampleWorld)))%nat
  /\ map (fun e => (e_utmRecordId e, e_attributionWeight e))
         (fst (createAttribution sampleUUID sampleNow "contact-1" None (JS.Fin 1000)
                 (mkConfig linear None) sampleWorld))
     = map (fun tp => (u_id tp,
                       JS.Fin (1 / INR (List.length
                                 (Store.getUTMRecordsByContact "contact-1"
                                    (store sampleWorld))))))
           (Store.getUTMRecordsByContact "contact-1" (store sampleWorld)).
Proof.
  split.
  - simpl. lia.
  - apply (linear_credits_every_touchpoint sampleUUID sampleNow "contact-1" None
             (JS.Fin 1000) None sampleWorld).
    simpl. lia.
Defined.

Lemma emitEvents_shape (randomUUID : nat -> string) (now : Z)
  (contactId : string) (dealId : option string) (revenue : JS.jsnum)
  (config : AttributionConfig) (pairs : list (UTMRecord * JS.jsnum)) (w : World) :
  let events := fst (emitEvents randomUUID now contactId dealId revenue config pairs w) in
  Forall (fun e => exists tp wt,
              In (tp, wt) pairs
              /\ e = newEvent now (e_id e) contactId dealId revenue config tp wt)
         events
  /\ map e_id events = map randomUUID (seq (uuidCalls w) (List.length events)).
Proof.
  cbv zeta. revert w. induction pairs as [|[tp wt] rest IH]; intros w.
  - split; [constructor | reflexivity].
  - destruct (JS.gt wt (JS.Fin 0)) eqn:Hpos.
    + rewrite emitEvents_cons_pos by exact Hpos. cbv zeta. simpl fst.
      destruct (IH (mkWorld
                      (Store.addAttributionEvent
                         (newEvent now (randomUUID (uuidCalls w)) contactId dealId
                                   revenue config tp wt) (store w))
                      (S (uuidCalls w)))) as [Hall Hids].
      split.
      * constructor.
        -- exists tp, wt. split; [left; reflexivity | reflexivity].
        -- eapply Forall_impl; [|exact Hall].
           intros e (tp' & wt' & Hin & He). exists tp', wt'.
           split; [right; exact Hin | exact He].
      * simpl. f_equal. exact Hids.
    + rewrite emitEvents_cons_skip by exact Hpos.
      destruct (IH w) as [Hall Hids]. split; [|exact Hids].
      eapply Forall_impl; [|exact Hall].
      intros e (tp' & wt' & Hin & He). exists tp', wt'.
      split; [right; exact Hin | exact He].
Qed.

(** X16.  Every event that [createAttribution] emits belongs to a touchpoint
    of the entity: it copies the channel, the source and the source detail
    of that touchpoint, carries the contact, the deal, the model and the
    whole revenue (not the revenue times the weight) and is stamped with the
    time of creation.  The identifiers are the ones drawn, in order. *)
Theorem createAttribution_event_fields :
  forall (randomUUID : nat -> string) (now : Z) (contactId : string)
         (dealId : option string) (revenue : JS.jsnum)
         (config : AttributionConfig) (w : World),
    let events :=
      fst (createAttribution randomUUID now contactId dealId revenue config w) in
    Forall (fun e =>
              e_contactId e = contactId /\ e_dealId e = dealId
              /\ e_revenue e = revenue /\ e_attributionModel e = model config
              /\ e_timestamp e = now
              /\ exists tp,
                   In tp (Store.getUTMRecordsByContact contactId (store w))
                   /\ e_utmRecordId e = u_id tp /\ e_channel e = u_channel tp
                   /\ e_source e = u_source tp
                   /\ e_sourceDetail e = u_sourceDetail tp)
           events
    /\ map e_id events = map randomUUID (seq (uuidCalls w) (List.length events)).
Proof.
  intros randomUUID now contactId dealId revenue config w. cbv zeta.
  unfold createAttribution.
  destruct (List.length (Store.getUTMRecordsByContact contactId (store w)) =? 0)%nat.
  - split; [constructor | reflexivity].
  - destruct (emitEvents_shape randomUUID now contactId dealId revenue config
                (combine (Store.getUTMRecordsByContact contactId (store w))
                         (calculateWeights now
                            (Store.getUTMRecordsByContact contactId (store w)) config))
                w) as [Hall Hids].
    split; [|exact Hids].
    eapply Forall_impl; [|exact Hall].
    intros e (tp & wt & Hin & He). rewrite He. cbn.
    repeat split. exists tp. repeat split.
    eapply in_combine_l, Hin.
Qed.

(* ------------------------------------------------------------------ *)
(** ** Attribution: what stays in the store *)

Lemma addAll_other_parts (events : list AttributionEvent) (st : DataStore) :
  normalizationRules (addAll events st) = normalizationRules st
  /\ sourceMappings (addAll events st) = sourceMappings st
  /\ channelCosts (addAll events st) = channelCosts st
  /\ utmRecords (addAll events st) = utmRecords st.
Proof.
  revert st. induction events as [|e events IH]; intros st; [repeat split|].
  change (addAll (e :: events) st) with (addAll events (Store.addAttributionEvent e st)).
  destruct (IH (Store.addAttributionEvent e st)) as (H1 & H2 & H3 & H4).
  rewrite H1, H2, H3, H4. repeat split.
Qed.

Lemma createAttribution_store (randomUUID : nat -> string) (now : Z)
  (contactId : string) (dealId : option string) (revenue : JS.jsnum)
  (config : AttributionConfig) (w : World) :
  let result := createAttribution randomUUID now contactId dealId revenue config w in
  store (snd result) = addAll (fst result) (store w)
  /\ uuidCalls (snd result) = (uuidCalls w + List.length (fst result))%nat.
Proof.
  cbv zeta. unfold createAttribution.
  destruct (List.length (Store.getUTMRecordsByContact contactId (store w)) =? 0)%nat.
  - simpl. split; [reflexivity | lia].
  - apply emitEvents_store.
Qed.

Lemma NoDup_map_seq (f : nat -> string) (start len : nat) :
  (forall j k, (start <= j)%nat -> (start <= k)%nat -> f j = f k -> j = k) ->
  NoDup (map f (seq start len)).
Proof.
  intros Hinj. revert start Hinj. induction len as [|len IH]; intros start Hinj.
  - constructor.
  - simpl. constructor.
    + intros Hin. apply in_map_iff in Hin. destruct Hin as (k & Ek & Hk).
      apply in_seq in Hk. assert (k = start) by (apply Hinj; [lia | lia | exact Ek]).
      lia.
    + apply IH. intros j k Hj Hk. apply Hinj; lia.
Qed.

Lemma createAttribution_ids (randomUUID : nat -> string) (now : Z)
  (contactId : string) (dealId : option string) (revenue : JS.jsnum)
  (config : AttributionConfig) (w : World) :
  let events :=
    fst (createAttribution randomUUID now contactId dealId revenue config w) in
  Forall (fun e => e_contactId e = contactId) events
  /\ map e_id events = map randomUUID (seq (uuidCalls w) (List.length events)).
Proof.
  cbv zeta. unfold createAttribution.
  destruct (List.length (Store.getUTMRecordsByContact contactId (store w)) =? 0)%nat.
  - split; [constructor | reflexivity].
  - split; [|apply emitEvents_shape].
    eapply Forall_impl; [|apply emitEvents_revenue].
    intros e (_ & _ & He & _). exact He.
Qed.

(** X17.  When the identifiers drawn are fresh, [createAttribution] only
    appends: the stored events are the earlier ones, unchanged and in
    their order, followed by the emitted ones.  So the events of the contact
    are the earlier ones followed by the emitted ones, the events of every
    other contact are untouched, and the identifiers stay fresh. *)
Theorem createAttribution_appends :
  forall (randomUUID : nat -> string) (now : Z) (contactId : string)
         (dealId : option string) (revenue : JS.jsnum)
         (config : AttributionConfig) (w : World),
    freshIds randomUUID w ->
    let events :=
      fst (createAttribution randomUUID now contactId dealId revenue config w) in
    let w' :=
      snd (createAttribution randomUUID now contactId dealId revenue config w) in
    attributionEvents (store w') = attributionEvents (store w) ++ events
    /\ (forall c,
          getContactAttribution c w'
          = getContactAttribution c w
            ++ (if String.eqb c contactId then events else []))
    /\ freshIds randomUUID w'.
Proof.
  intros randomUUID now contactId dealId revenue config w [Hfresh Hinj] events w'.
  destruct (createAttribution_store randomUUID now contactId dealId revenue config w)
    as [Hstore Hcalls].
  destruct (createAttribution_ids randomUUID now contactId dealId revenue
              config w) as [Hfields Hids].
  fold events in Hstore, Hcalls, Hfields, Hids. fold w' in Hstore, Hcalls.
  assert (Happ : attributionEvents (store w') = attributionEvents (store w) ++ events).
  { rewrite Hstore. apply addAll_fresh.
    - rewrite Hids. apply NoDup_map_seq. exact Hinj.
    - intros e He. apply (in_map e_id) in He. rewrite Hids in He.
      apply in_map_iff in He. destruct He as (k & <- & Hk). apply in_seq in Hk.
      apply Hfresh. lia. }
  split; [exact Happ|]. split.
  - intros c. unfold getContactAttribution, Store.getAttributionEventsByContact.
    rewrite Happ, filter_app. f_equal.
    destruct (String.eqb c contactId) eqn:Ec.
    + apply String.eqb_eq in Ec. subst c.
      apply forallb_filter_id. apply forallb_forall. intros e He.
      rewrite Forall_forall in Hfields. rewrite (Hfields e He).
      apply String.eqb_refl.
    + clear -Hfields Ec. induction Hfields as [|e l He _ IH]; [reflexivity|].
      simpl. rewrite He. rewrite String.eqb_sym, Ec. exact IH.
  - split.
    + intros k Hk. rewrite Happ, hasKey_app, Hfresh by lia. simpl.
      destruct (hasKey e_id (randomUUID k) events) eqn:E; [|reflexivity].
      apply hasKey_In in E. rewrite Hids in E. apply in_map_iff in E.
      destruct E as (j & Ej & Hj). apply in_seq in Hj.
      assert (j = k) by (apply Hinj; [lia | lia | exact Ej]). lia.
    + intros j k Hj Hk. apply Hinj; lia.
Qed.

Lemma sampleUUID_length (k : nat) : String.length (sampleUUID k) = (k + 3)%nat.
Proof. induction k as [|k IH]; [reflexivity | simpl; rewrite IH; reflexivity]. Qed.

Lemma sampleUUID_injective (j k : nat) : sampleUUID j = sampleUUID k -> j = k.
Proof.
  intros H. apply (f_equal String.length) in H.
  rewrite !sampleUUID_length in H. lia.
Qed.

Lemma convertedWorld_fresh : freshIds sampleUUID convertedWorld.
Proof.
  split.
  - intros k Hk. simpl in Hk. apply not_true_is_false. intros H.
    apply hasKey_In in H. simpl in H.
    destruct H as [H | [H | []]].
    + apply (sampleUUID_injective 0 k) in H. lia.
    + apply (sampleUUID_injective 1 k) in H. lia.
  - intros j k _ _. apply sampleUUID_injective.
Qed.

Lemma createAttribution_appends_witness :
  freshIds sampleUUID convertedWorld
  /\ (let events :=
        fst (createAttribution sampleUUID sampleNow "contact-1" None (JS.Fin 500)
               (mkConfig last_touch None) convertedWorld) in
      let w' :=
        snd (createAttribution sampleUUID sampleNow "contact-1" None (JS.Fin 500)
               (mkConfig last_touch None) convertedWorld) in
      attributionEvents (store w') = attributionEvents (store convertedWorld) ++ events
      /\ (forall c,
            getContactAttribution c w'
            = getContactAttribution c convertedWorld
              ++ (if String.eqb c "contact-1" then events else []))
      /\ freshIds sampleUUID w').
Proof.
  split; [exact convertedWorld_fresh|].
  apply (createAttribution_appends sampleUUID sampleNow "contact-1" None (JS.Fin 500)
           (mkConfig last_touch None) convertedWorld convertedWorld_fresh).
Defined.

(* ------------------------------------------------------------------ *)
(** ** Attribution: recalculation adds to the store *)

Lemma createAttribution_store_append (randomUUID : nat -> string) (now : Z)
  (contactId : string) (dealId : option string) (revenue : JS.jsnum)
  (config : AttributionConfig) (w : World) :
  freshIds randomUUID w ->
  attributionEvents
    (store (snd (createAttribution randomUUID now contactId dealId revenue config w)))
  = attributionEvents (store w)
    ++ fst (createAttribution randomUUID now contactId dealId revenue config w).
Proof.
  intros [Hfresh Hinj].
  destruct (createAttribution_store randomUUID now contactId dealId revenue config w)
    as [Hstore _].
  destruct (createAttribution_ids randomUUID now contactId dealId revenue config w)
    as [_ Hids].
  cbv zeta in Hstore, Hids. rewrite Hstore. apply addAll_fresh.
  - rewrite Hids. apply NoDup_map_seq. exact Hinj.
  - intros e He. apply (in_map e_id) in He. rewrite Hids in He.
    apply in_map_iff in He. destruct He as (k & <- & Hk). apply in_seq in Hk.
    apply Hfresh. lia.
Qed.

Lemma filter_own_contact (contactId : string) (events : list AttributionEvent) :
  Forall (fun e => e_contactId e = contactId) events ->
  filter (fun e => String.eqb (e_contactId e) contactId) events = events.
Proof.
  induction 1 as [|e l He _ IH]; [reflexivity|].
  simpl. rewrite He, String.eqb_refl, IH. reflexivity.
Qed.

(** X18.  [recalculateAttribution] never removes or replaces a stored event.
    With fresh identifiers, the events of the contact afterwards are the
    earlier ones followed by the new ones; each new event carries a positive
    weight, and there is none when the contact had no event. *)
Theorem recalculateAttribution_adds_to_prior :
  forall (randomUUID : nat -> string) (now : Z) (contactId : string)
         (newConfig : AttributionConfig) (w : World),
    freshIds randomUUID w ->
    let events := fst (recalculateAttribution randomUUID now contactId newConfig w) in
    let w' := snd (recalculateAttribution randomUUID now contactId newConfig w) in
    attributionEvents (store w') = attributionEvents (store w) ++ events
    /\ getContactAttribution contactId w'
       = getContactAttribution contactId w ++ events
    /\ Forall (fun e => JS.gt (e_attributionWeight e) (JS.Fin 0) = true) events
    /\ (getContactAttribution contactId w = [] -> events = []).
Proof.
  intros randomUUID now contactId newConfig w Hfresh. cbv zeta.
  unfold getContactAttribution at 3.
  destruct (Store.getAttributionEventsByContact contactId (store w))
    as [|e0 existing] eqn:Eex.
  - unfold recalculateAttribution. rewrite Eex. simpl.
    rewrite !app_nil_r. repeat split. constructor.
  - assert (Hne : Store.getAttributionEventsByContact contactId (store w) <> [])
      by (rewrite Eex; discriminate).
    destruct (recalculateAttribution_reinvokes randomUUID now contactId newConfig w Hne)
      as [Hre _].
    rewrite Hre. clear Hre.
    set (dealId := match find _ _ with Some e => e_dealId e | None => None end).
    set (revenue := JS.div _ _).
    pose proof (createAttribution_store_append randomUUID now contactId dealId revenue
                  newConfig w Hfresh) as Happ.
    split; [exact Happ|]. split; [|split].
    + unfold getContactAttribution, Store.getAttributionEventsByContact.
      rewrite Happ, filter_app. f_equal.
      apply filter_own_contact.
      apply (createAttribution_ids randomUUID now contactId dealId revenue newConfig w).
    + apply (proj1 (Forall_map e_attributionWeight
                      (fun x => JS.gt x (JS.Fin 0) = true) _)).
      eapply Forall_impl;
        [|apply (createAttribution_shares randomUUID now contactId dealId revenue
                   newConfig w)].
      intros x (r & -> & Hr). apply gt_Fin. lra.
    + discriminate.
Qed.

Lemma recalculateAttribution_adds_to_prior_witness :
  freshIds sampleUUID convertedWorld
  /\ (let events :=
        fst (recalculateAttribution sampleUUID sampleNow "contact-1"
               (mkConfig time_decay None) convertedWorld) in
      let w' :=
        snd (recalculateAttribution sampleUUID sampleNow "contact-1"
               (mkConfig time_decay None) convertedWorld) in
      attributionEvents (store w') = attributionEvents (store convertedWorld) ++ events
      /\ getContactAttribution "contact-1" w'
         = getContactAttribution "contact-1" convertedWorld ++ events
      /\ Forall (fun e => JS.gt (e_attributionWeight e) (JS.Fin 0) = true) events
      /\ (getContactAttribution "contact-1" convertedWorld = [] -> events = [])).
Proof.
  split; [exact convertedWorld_fresh|].
  apply (recalculateAttribution_adds_to_prior sampleUUID sampleNow "contact-1"
           (mkConfig time_decay None) convertedWorld convertedWorld_fresh).
Defined.

(* ------------------------------------------------------------------ *)
(** ** Attribution: the store stays fit for the metrics *)

Lemma mapSet_In (V : Type) (key : V -> string) (v x : V) (m : list V) :
  In x (mapSet key v m) -> x = v \/ In x m.
Proof.
  induction m as [|y m IH]; simpl.
  - intros [<- | []]. left; reflexivity.
  - destruct (String.eqb (key y) (key v)); simpl.
    + intros [<- | H]; [left; reflexivity | right; right; exact H].
    + intros [<- | H]; [right; left; reflexivity|].
      destruct (IH H) as [-> | Hin]; [left; reflexivity | right; right; exact Hin].
Qed.

Lemma addAll_In (events : list AttributionEvent) (st : DataStore) (x : AttributionEvent) :
  In x (attributionEvents (addAll events st)) ->
  In x events \/ In x (attributionEvents st).
Proof.
  revert st. induction events as [|e events IH]; intros st H; [right; exact H|].
  change (addAll (e :: events) st)
    with (addAll events (Store.addAttributionEvent e st)) in H.
  destruct (IH _ H) as [Hin | Hin]; [left; right; exact Hin|].
  simpl in Hin. apply mapSet_In in Hin.
  destruct Hin as [-> | Hin]; [left; left; reflexivity | right; exact Hin].
Qed.

(** X24.  [createAttribution] keeps the store fit for the metrics: if the
    stored weights were positive they still are, and if the stored numbers
    were finite and the revenue is finite they still are, whatever the
    identifiers drawn. *)
Theorem createAttribution_keeps_weights_positive :
  forall (randomUUID : nat -> string) (now : Z) (contactId : string)
         (dealId : option string) (revenue : R)
         (config : AttributionConfig) (w : World),
    positiveWeights (store w) ->
    finiteStore (store w) ->
    let w' := snd (createAttribution randomUUID now contactId dealId
                     (JS.Fin revenue) config w) in
    positiveWeights (store w') /\ finiteStore (store w').
Proof.
  intros randomUUID now contactId dealId revenue config w Hpos [Hcosts Hevents] w'.
  destruct (createAttribution_store randomUUID now contactId dealId (JS.Fin revenue)
              config w) as [Hstore _].
  cbv zeta in Hstore. fold w' in Hstore.
  assert (Hnew : Forall (fun e => (exists r, e_attributionWeight e = JS.Fin r /\ (0 < r)%R)
                                  /\ e_revenue e = JS.Fin revenue)
                        (fst (createAttribution randomUUID now contactId dealId
                                (JS.Fin revenue) config w))).
  { apply Forall_forall. intros e He. split.
    - pose proof (createAttribution_shares randomUUID now contactId dealId
                    (JS.Fin revenue) config w) as Hs.
      rewrite Forall_forall in Hs.
      destruct (Hs (e_attributionWeight e) (in_map _ _ _ He)) as (r & Hr & Hr01).
      exists r. split; [exact Hr | lra].
    - unfold createAttribution in He.
      destruct (List.length (Store.getUTMRecordsByContact contactId (store w)) =? 0)%nat;
        [destruct He|].
      pose proof (emitEvents_revenue randomUUID now contactId dealId (JS.Fin revenue)
                    config (combine (Store.getUTMRecordsByContact contactId (store w))
                                    (calculateWeights now
                                       (Store.getUTMRecordsByContact contactId (store w))
                                       config)) w) as Hr.
      rewrite Forall_forall in Hr. apply (Hr e He). }
  rewrite Forall_forall in Hnew.
  split; [|split].
  - apply Forall_forall. intros e He. rewrite Hstore in He.
    apply addAll_In in He. destruct He as [He | He].
    + apply (Hnew e He).
    + unfold positiveWeights in Hpos. rewrite Forall_forall in Hpos. apply Hpos, He.
  - rewrite Hstore. destruct (addAll_other_parts
                                (fst (createAttribution randomUUID now contactId dealId
                                        (JS.Fin revenue) config w)) (store w))
      as (_ & _ & -> & _). exact Hcosts.
  - apply Forall_forall. intros e He. rewrite Hstore in He.
    apply addAll_In in He. destruct He as [He | He].
    + destruct (Hnew e He) as [(r & -> & _) ->]. split; reflexivity.
    + rewrite Forall_forall in Hevents. apply Hevents, He.
Qed.

Lemma createAttribution_keeps_weights_positive_witness :
  positiveWeights (store convertedWorld)
  /\ finiteStore (store convertedWorld)
  /\ positiveWeights
       (store (snd (createAttribution sampleUUID sampleNow "contact-1" None
                      (JS.Fin 250) (mkConfig time_decay None) convertedWorld)))
  /\ finiteStore
       (store (snd (createAttribution sampleUUID sampleNow "contact-1" None
                      (JS.Fin 250) (mkConfig time_decay None) convertedWorld))).
Proof.
  split; [exact convertedStore_positive|]. split; [exact convertedStore_finite|].
  apply (createAttribution_keeps_weights_positive sampleUUID sampleNow "contact-1" None
           250 (mkConfig time_decay None) convertedWorld
           convertedStore_positive convertedStore_finite).
Defined.

Lemma map_filter_map (A B : Type) (F : A -> B) (g : B -> A) (P : B -> bool)
  (l : list A) :
  (forall a, g (F a) = a) ->
  map g (filter P (map F l)) = filter (fun a => P (F a)) l.
Proof.
  intros Hg. induction l as [|a l IH]; [reflexivity|].
  simpl. destruct (P (F a)); simpl; rewrite ?Hg, IH; reflexivity.
Qed.

(** X25.  [getChannelMetrics] lists no channel twice, and every channel it
    lists is the channel of a stored touchpoint or of a stored cost. *)
Theorem getChannelMetrics_channels :
  forall (parseDate : string -> option Z) (startDate endDate : string)
         (st : DataStore),
    let channels := map cm_channel (getChannelMetrics parseDate startDate endDate st) in
    NoDup channels
    /\ Forall (fun channel => In channel (map u_channel (utmRecords st))
                              \/ In channel (map c_channel (channelCosts st)))
              channels.
Proof.
  intros parseDate startDate endDate st channels. subst channels.
  unfold getChannelMetrics.
  rewrite (map_filter_map _ _ _ cm_channel) by reflexivity. split.
  - apply NoDup_filter. unfold getUniqueChannels, unique. apply uniqueFrom_NoDup.
  - apply Forall_forall. intros channel H. apply filter_In in H. destruct H as [H _].
    unfold getUniqueChannels in H. apply unique_In, in_app_or in H. exact H.
Qed.

(* ------------------------------------------------------------------ *)
(** ** Ingestion *)

(** X26.  What [POST /api/utm] stores: the record is stored under its new
    identifier whatever the validation reports, it keeps the parameters as
    they came and holds their normalization against the rules of the store,
    whose fields are all over [[a-z0-9_-]]; its source, source detail and
    channel are what [mapToSource] answers on the normalized parameters; it
    is among the touchpoints of its contact; the rules and the mappings of
    the store are untouched. *)
Theorem ingestUTM_stores_record :
  forall (regexTest : string -> string -> bool) (formatSourceName : string -> string)
         (randomUUID : nat -> string) (now : Z) (req : IngestUTMRequest) (w : World),
    let record := ir_record (fst (ingestUTM regexTest formatSourceName randomUUID now req w)) in
    let w' := snd (ingestUTM regexTest formatSourceName randomUUID now req w) in
    getUTMRecord (randomUUID (uuidCalls w)) (store w') = Some record
    /\ u_originalParams record = q_params req
    /\ u_normalizedParams record = normalize regexTest (store w) (q_params req)
    /\ (forall f, match getField f (u_normalizedParams record) with
                  | Some v => Str.all Str.isSlugChar v = true
                  | None => True
                  end)
    /\ (u_source record, u_sourceDetail record, u_channel record)
       = (let mapping := mapToSource formatSourceName (store w)
                           (u_normalizedParams record) in
          (res_source mapping, res_sourceDetail mapping, res_channel mapping))
    /\ match q_contactId req with
       | Some contactId => In record (Store.getUTMRecordsByContact contactId (store w'))
       | None => True
       end
    /\ normalizationRules (store w') = normalizationRules (store w)
    /\ sourceMappings (store w') = sourceMappings (store w).
Proof.
  intros regexTest formatSourceName randomUUID now req w record w'.
  subst record w'. unfold ingestUTM. cbn [fst snd ir_record store].
  split; [|split; [reflexivity|split; [reflexivity|split; [|split; [reflexivity|split]]]]].
  - unfold getUTMRecord. simpl utmRecords.
    apply (mapGet_mapSet_same _ u_id
             (buildRecord regexTest formatSourceName now (store w)
                          (randomUUID (uuidCalls w)) req)).
  - intros f. cbn [buildRecord u_normalizedParams].
    destruct (getField f (normalize regexTest (store w) (q_params req))) as [v|] eqn:E;
      [|exact I].
    exact (normalize_field_slug regexTest (store w) (q_params req) f v E).
  - destruct (q_contactId req) as [contactId|] eqn:Ec; [|exact I].
    apply getUTMRecordsByContact_In. split.
    + simpl utmRecords.
      pose proof (mapGet_mapSet_same _ u_id
                    (buildRecord regexTest formatSourceName now (store w)
                                 (randomUUID (uuidCalls w)) req)
                    (utmRecords (store w))) as Hget.
      apply mapGet_key in Hget. apply Hget.
    + cbn [buildRecord u_contactId]. exact Ec.
  - split; reflexivity.
Qed.


(* ------------------------------------------------------------------ *)
(** ** Seeding *)

Section SetAllFacts.

Variable V : Type.
Variable key : V -> string.

Lemma mapGet_mapSetAll_other (k : string) (vs m : list V) :
  ~ In k (map key vs) -> mapGet key k (mapSetAll key vs m) = mapGet key k m.
Proof.
  revert m. induction vs as [|v vs IH]; intros m Hk; [reflexivity|].
  simpl in Hk. unfold mapSetAll. simpl. fold (mapSetAll key vs (mapSet key v m)).
  rewrite IH by tauto. apply mapGet_mapSet_other. intros ->. tauto.
Qed.

Lemma mapGet_mapSetAll_same (v : V) (vs m : list V) :
  NoDup (map key vs) -> In v vs -> mapGet key (key v) (mapSetAll key vs m) = Some v.
Proof.
  revert m. induction vs as [|x vs IH]; intros m Hnd Hin; [destruct Hin|].
  simpl in Hnd. inversion Hnd as [|a l Hnotin Hnd']; subst.
  unfold mapSetAll. simpl. fold (mapSetAll key vs (mapSet key x m)).
  destruct Hin as [-> | Hin].
  - rewrite mapGet_mapSetAll_other by exact Hnotin. apply mapGet_mapSet_same.
  - apply IH; assumption.
Qed.

Lemma mapSet_same_value (v : V) (m : list V) :
  mapGet key (key v) m = Some v -> mapSet key v m = m.
Proof.
  unfold mapGet. induction m as [|x m IH]; simpl; [discriminate|].
  destruct (String.eqb (key x) (key v)).
  - intros [= ->]. reflexivity.
  - intros H. rewrite IH by exact H. reflexivity.
Qed.

Lemma mapSetAll_same_values (vs m : list V) :
  (forall v, In v vs -> mapGet key (key v) m = Some v) -> mapSetAll key vs m = m.
Proof.
  induction vs as [|v vs IH]; intros H; [reflexivity|].
  unfold mapSetAll. simpl. rewrite mapSet_same_value by (apply H; left; reflexivity).
  apply IH. intros x Hx. apply H. right; exact Hx.
Qed.

Lemma mapSetAll_idempotent (vs m : list V) :
  NoDup (map key vs) ->
  mapSetAll key vs (mapSetAll key vs m) = mapSetAll key vs m.
Proof.
  intros Hnd. apply mapSetAll_same_values.
  intros v Hv. apply mapGet_mapSetAll_same; assumption.
Qed.

End SetAllFacts.

Lemma seedDefaults_parts (st : DataStore) :
  seedDefaults st
  = mkStore (mapSetAll r_id seedRules (normalizationRules st))
            (mapSetAll m_id seedMappings (sourceMappings st))
            (channelCosts st) (utmRecords st) (attributionEvents st).
Proof.
  unfold seedDefaults.
  assert (Hrules : forall rules s,
             fold_left (fun s r => Store.addNormalizationRule r s) rules s
             = mkStore (mapSetAll r_id rules (normalizationRules s)) (sourceMappings s)
                       (channelCosts s) (utmRecords s) (attributionEvents s)).
  { induction rules as [|r rules IH]; intros s; [destruct s; reflexivity|].
    simpl. rewrite IH. reflexivity. }
  assert (Hmaps : forall maps s,
             fold_left (fun s m => Store.addSourceMapping m s) maps s
             = mkStore (normalizationRules s) (mapSetAll m_id maps (sourceMappings s))
                       (channelCosts s) (utmRecords s) (attributionEvents s)).
  { induction maps as [|m maps IH]; intros s; [destruct s; reflexivity|].
    simpl. rewrite IH. reflexivity. }
  rewrite Hmaps, Hrules. reflexivity.
Qed.

Lemma seed_ids_distinct :
  NoDup (map r_id seedRules) /\ NoDup (map m_id seedMappings).
Proof.
  split; simpl;
    repeat (constructor;
            [simpl; intros H;
             repeat (destruct H as [H | H]; [discriminate H|]); exact H|]);
    constructor.
Qed.

(** X28.  Seeding is idempotent and touches nothing else: on any store,
    [seedDefaults] puts the default rules and mappings under their
    identifiers (replacing what was stored under them), leaves the costs,
    touchpoints and attribution events alone, and a second call changes
    nothing.  After [clear] the store holds exactly the defaults. *)
Theorem seedDefaults_idempotent :
  forall (st : DataStore),
    seedDefaults (seedDefaults st) = seedDefaults st
    /\ (forall rule, In rule seedRules ->
                     getNormalizationRule (r_id rule) (seedDefaults st) = Some rule)
    /\ channelCosts (seedDefaults st) = channelCosts st
    /\ utmRecords (seedDefaults st) = utmRecords st
    /\ attributionEvents (seedDefaults st) = attributionEvents st
    /\ normalizationRules (seedDefaults (clear st)) = seedRules
    /\ sourceMappings (seedDefaults (clear st)) = seedMappings.
Proof.
  intros st. destruct seed_ids_distinct as [Hr Hm].
  split; [|split; [|repeat split]].
  - rewrite (seedDefaults_parts (seedDefaults st)), (seedDefaults_parts st).
    cbn [normalizationRules sourceMappings channelCosts utmRecords attributionEvents].
    rewrite (mapSetAll_idempotent _ r_id seedRules _ Hr).
    rewrite (mapSetAll_idempotent _ m_id seedMappings _ Hm). reflexivity.
  - intros rule Hin. rewrite seedDefaults_parts. unfold getNormalizationRule.
    cbn [normalizationRules]. apply mapGet_mapSetAll_same; assumption.
Qed.
